(** * fsma::array_3d<T, D1, D2, D3>: a shallow embedding of array_3d.hpp

    The container wraps the built-in array [T elems[D1][D2][D3]].  Its
    member functions mix two views of that array: coordinate access
    ([elems[dim1][dim2][dim3]]) and raw pointers walking the contiguous
    cells ([begin() + size()], the <algorithm> loops).  The embedding
    keeps both: an object is a block of cells in a typed heap, a
    pointer is a block together with a cell offset, and every member
    function is written over pointers the way the header writes it.
    Operations that read or write cells, or that throw, live in a small
    state-and-exception monad. *)

From stdpp Require Import gmap list strings.
From Stdlib Require Import NArith ZArith Lia.

Local Open Scope N_scope.

(** ** std::size_t

    [size_type] is [std::size_t]: unsigned, 64 bits wide on the LP64
    targets the header is built for.  Values are kept in [N]; the
    arithmetic the header performs on them wraps around. *)
Module SizeT.

Definition width : N := 64.
Definition modulus : N := 2 ^ width.

Definition wrap (x : N) : N := x mod modulus.

Definition mul (a b : N) : N := wrap (a * b).

(* a - b on operands below the modulus *)
Definition sub (a b : N) : N := wrap (a + modulus - b).

End SizeT.

(** ** Memory: blocks of cells, pointers, and the monad of effects *)

(* Identity of a complete object. *)
Definition loc := positive.

(* T* : a block and a cell offset inside (or one past) it. *)
Record ptr := Ptr { blk : loc; off : N }.

(* p + n *)
Definition ptr_add (p : ptr) (n : N) : ptr := Ptr (blk p) (off p + n).

Infix "+ₚ" := ptr_add (at level 50, left associativity).

(* std::out_of_range(what_arg) is the only exception type the header uses. *)
Inductive exception := out_of_range (what_arg : string).

(* How a call ends: it returns, it throws (the heap is the one at the throw),
   or it leaves the abstract machine (a cell outside every live block is
   touched, a range is not a range). *)
Inductive outcome (S A : Type) :=
  | Ret (a : A) (s : S)
  | Throw (e : exception) (s : S)
  | Undefined.

Arguments Ret {S A} a s.
Arguments Throw {S A} e s.
Arguments Undefined {S A}.

Definition M (S A : Type) : Type := S -> outcome S A.

Definition ret {S A} (a : A) : M S A := fun s => Ret a s.

Definition bind {S A B} (m : M S A) (k : A -> M S B) : M S B :=
  fun s =>
    match m s with
    | Ret a s' => k a s'
    | Throw e s' => Throw e s'
    | Undefined => Undefined
    end.

Definition throw {S A} (e : exception) : M S A := fun s => Throw e s.

Definition undefined {S A} : M S A := fun _ => Undefined.

Notation "x <- m ;; k" := (bind m (fun x => k))
  (at level 100, m at next level, right associativity).
Notation "m ;;; k" := (bind m (fun _ => k))
  (at level 100, right associativity).

(* A partial read: no value means the abstract machine was left. *)
Definition lift_option {S A} (o : option A) : M S A :=
  fun s =>
    match o with
    | Some a => Ret a s
    | None => Undefined
    end.

(* The heap a call leaves behind, when it leaves one. *)
Definition final_state {S A} (r : outcome S A) : option S :=
  match r with
  | Ret _ s => Some s
  | Throw _ s => Some s
  | Undefined => None
  end.

(* The cells of every live object whose elements have type T. *)
Abbreviation heap T := (gmap loc (list T)).

(* last - first for a range [first, last) of one block *)
Definition distance {S} (first last : ptr) : M S nat :=
  if decide (blk first = blk last) then
    if off first <=? off last
    then ret (N.to_nat (off last - off first))
    else undefined
  else undefined.

Section Heap.
Context {T : Type}.

(* The cell p points to, if it lies in a live block. *)
Definition cell (h : heap T) (p : ptr) : option T :=
  match h !! blk p with
  | Some cells => cells !! N.to_nat (off p)
  | None => None
  end.

(* *p as an rvalue *)
Definition load (p : ptr) : M (heap T) T :=
  fun h => lift_option (cell h p) h.

(* *p = v *)
Definition store (p : ptr) (v : T) : M (heap T) unit :=
  fun h =>
    match h !! blk p with
    | Some cells =>
        if decide (N.to_nat (off p) < length cells)%nat
        then Ret tt (<[blk p := <[N.to_nat (off p) := v]> cells]> h)
        else Undefined
    | None => Undefined
    end.
End Heap.

(** ** The <algorithm> loops the header calls

    Each is the loop of the standard library over raw pointers.  A loop
    [for (; first != last; ++first)] over a range runs [last - first]
    times; the count is taken once with [distance] and the body recurses
    on it. *)

(* What == and < mean on the element type. *)
Class EqualityComparable (T : Type) := eq_op : T -> T -> bool.
Class LessThanComparable (T : Type) := lt_op : T -> T -> bool.

Section Algorithms.
Context {T : Type}.

(* for (; n > 0; --n, ++first) *first = value;  return first; *)
Fixpoint fill_n_loop (n : nat) (first : ptr) (value : T) : M (heap T) ptr :=
  match n with
  | O => ret first
  | S n' => store first value ;;; fill_n_loop n' (first +ₚ 1) value
  end.

Definition fill_n (first : ptr) (n : N) (value : T) : M (heap T) ptr :=
  fill_n_loop (N.to_nat n) first value.

(* std::swap of the cells a and b point to:  T tmp = *a;  *a = *b;  *b = tmp; *)
Definition iter_swap (a b : ptr) : M (heap T) unit :=
  tmp <- load a ;;
  vb <- load b ;;
  store a vb ;;;
  store b tmp.

(* for (; first1 != last1; ++first1, ++first2) iter_swap(first1, first2);
   return first2;
   The library asks callers for ranges that do not overlap.  The loop is
   modelled as it runs, whatever the ranges are. *)
Fixpoint swap_ranges_loop (n : nat) (first1 first2 : ptr) : M (heap T) ptr :=
  match n with
  | O => ret first2
  | S n' =>
      iter_swap first1 first2 ;;;
      swap_ranges_loop n' (first1 +ₚ 1) (first2 +ₚ 1)
  end.

Definition swap_ranges (first1 last1 first2 : ptr) : M (heap T) ptr :=
  n <- distance first1 last1 ;;
  swap_ranges_loop n first1 first2.

(* for (; first1 != last1; ++first1, ++first2)
     if (!( *first1 == *first2 )) return false;
   return true; *)
Fixpoint equal_loop `{EqualityComparable T}
    (n : nat) (first1 first2 : ptr) : M (heap T) bool :=
  match n with
  | O => ret true
  | S n' =>
      a <- load first1 ;;
      b <- load first2 ;;
      if negb (eq_op a b) then ret false
      else equal_loop n' (first1 +ₚ 1) (first2 +ₚ 1)
  end.

Definition equal `{EqualityComparable T}
    (first1 last1 first2 : ptr) : M (heap T) bool :=
  n <- distance first1 last1 ;;
  equal_loop n first1 first2.

(* for (; first1 != last1 && first2 != last2; ++first1, ++first2) {
     if ( *first1 < *first2 ) return true;
     if ( *first2 < *first1 ) return false;
   }
   return first1 == last1 && first2 != last2; *)
Fixpoint lexicographical_compare_loop `{LessThanComparable T}
    (n1 n2 : nat) (first1 first2 : ptr) : M (heap T) bool :=
  match n1, n2 with
  | S n1', S n2' =>
      a <- load first1 ;;
      b <- load first2 ;;
      if lt_op a b then ret true
      else if lt_op b a then ret false
      else lexicographical_compare_loop n1' n2' (first1 +ₚ 1) (first2 +ₚ 1)
  | O, S _ => ret true
  | _, O => ret false
  end.

Definition lexicographical_compare `{LessThanComparable T}
    (first1 last1 first2 last2 : ptr) : M (heap T) bool :=
  n1 <- distance first1 last1 ;;
  n2 <- distance first2 last2 ;;
  lexicographical_compare_loop n1 n2 first1 first2.

(* What a caller sees walking an iterator from first to last:
   for (it = first; it != last; ++it) out.push_back( *it ); *)
Fixpoint traverse_loop (n : nat) (it : ptr) : M (heap T) (list T) :=
  match n with
  | O => ret []
  | S n' =>
      v <- load it ;;
      vs <- traverse_loop n' (it +ₚ 1) ;;
      ret (v :: vs)
  end.

Definition traverse (first last : ptr) : M (heap T) (list T) :=
  n <- distance first last ;;
  traverse_loop n first.
End Algorithms.

(* std::copy from a range of T2 cells into a range of T cells.  The source
   cells belong to objects of another element type, so they sit in the heap
   of that type, which the loop only reads. *)
Section Copy.
Context {T2 T : Type}.
(* the conversion the assignment *d_first = *first applies *)
Variable convert : T2 -> T.
Variable src : heap T2.

Definition load_src (p : ptr) : M (heap T) T2 :=
  lift_option (cell src p).

(* for (; first != last; ++first, ++d_first) *d_first = *first;
   return d_first; *)
Fixpoint copy_loop (n : nat) (first d_first : ptr) : M (heap T) ptr :=
  match n with
  | O => ret d_first
  | S n' =>
      v <- load_src first ;;
      store d_first (convert v) ;;;
      copy_loop n' (first +ₚ 1) (d_first +ₚ 1)
  end.

Definition copy (first last d_first : ptr) : M (heap T) ptr :=
  n <- distance first last ;;
  copy_loop n first d_first.
End Copy.

(** ** struct array_3d

    Member functions take [this] as the block of the object they are
    called on.  The const overloads of begin, end, front, back, operator()
    and at have the bodies of the non-const ones and are not repeated. *)

Section array_3d.
Context {T : Type}.
Variables D1 D2 D3 : N.

(* T elems[D1][D2][D3];  the only data member, so it starts the object.
   As a pointer it is the address of its first cell. *)
Definition elems (this : loc) : ptr := Ptr this 0.

(* The lvalue elems[dim1][dim2][dim3].  Built-in subscripting a[i] is
   a + i followed by a dereference, and a + i steps over whole elements of
   a: D2*D3 cells for elems, D3 cells for elems[dim1], one cell for
   elems[dim1][dim2].  Nothing is read or checked on the way: a coordinate
   past its bound yields whatever address the arithmetic gives, and only a
   later read or write of a cell outside the block is undefined. *)
Definition elems_sub (this : loc) (dim1 dim2 dim3 : N) : ptr :=
  elems this +ₚ dim1 * (D2 * D3) +ₚ dim2 * D3 +ₚ dim3.

(* capacity *)
Definition size_1d : N := D1.
Definition size_2d : N := D2.
Definition size_3d : N := D3.
Definition size : N := SizeT.mul (SizeT.mul D1 D2) D3.
Definition max_size : N := SizeT.mul (SizeT.mul D1 D2) D3.
Definition empty : bool := false.

(* iterator support: return **elems;  return begin() + size(); *)
Definition begin (this : loc) : ptr := elems this.
Definition end_ (this : loc) : ptr := begin this +ₚ size.

(* front() and back() return references *)
Definition front (this : loc) : ptr := elems_sub this 0 0 0.
Definition back (this : loc) : ptr :=
  elems_sub this (SizeT.sub D1 1) (SizeT.sub D2 1) (SizeT.sub D3 1).

(* operator(): non range checked access *)
Definition op_call (this : loc) (dim1 dim2 dim3 : N) : ptr :=
  elems_sub this dim1 dim2 dim3.

(* at: range-checked access *)
Definition at_ (this : loc) (dim1 dim2 dim3 : N) : M (heap T) ptr :=
  if (D1 <=? dim1) || (D2 <=? dim2) || (D3 <=? dim3)
  then throw (out_of_range "array_3d: index out of range")
  else ret (elems_sub this dim1 dim2 dim3).

(* data access *)
Definition data (this : loc) : ptr := elems this.

(* swap the contents of the arrays *)
Definition swap (this y : loc) : M (heap T) unit :=
  swap_ranges (begin this) (end_ this) (begin y) ;;;
  ret tt.

(* assign one value to all elements *)
Definition fill (this : loc) (value : T) : M (heap T) unit :=
  fill_n (elems_sub this 0 0 0) size value ;;;
  ret tt.

Definition assign (this : loc) (value : T) : M (heap T) unit :=
  fill this value.

(* comparisons *)
Definition op_eq `{EqualityComparable T} (x y : loc) : M (heap T) bool :=
  equal (begin x) (end_ x) (begin y).

Definition op_lt `{LessThanComparable T} (x y : loc) : M (heap T) bool :=
  lexicographical_compare (begin x) (end_ x) (begin y) (end_ y).

Definition op_ne `{EqualityComparable T} (x y : loc) : M (heap T) bool :=
  b <- op_eq x y ;; ret (negb b).

Definition op_gt `{LessThanComparable T} (x y : loc) : M (heap T) bool :=
  op_lt y x.

Definition op_le `{LessThanComparable T} (x y : loc) : M (heap T) bool :=
  b <- op_lt y x ;; ret (negb b).

Definition op_ge `{LessThanComparable T} (x y : loc) : M (heap T) bool :=
  b <- op_lt x y ;; ret (negb b).

(* Reading an element through a returned reference. *)
Definition value_of (r : M (heap T) ptr) : M (heap T) T :=
  p <- r ;; load p.

(** *** What the statements below talk about *)

(* The array type exists: its extent fits std::size_t. *)
Definition representable : Prop := D1 * D2 * D3 < SizeT.modulus.

(* A live array_3d object at [this] whose cells, in memory order, are
   [cells]. *)
Definition array_at (h : heap T) (this : loc) (cells : list T) : Prop :=
  h !! this = Some cells /\ length cells = N.to_nat (D1 * D2 * D3).

(* flat position of the coordinates (i,j,k) *)
Definition flat_index (i j k : N) : N := i * D2 * D3 + j * D3 + k.
End array_3d.

(* assignment with type conversion: this (element type T) = rhs (element
   type T2, same dimensions) *)
Definition op_assign {T2 T : Type} (D1 D2 D3 : N)
    (convert : T2 -> T) (src : heap T2) (this rhs : loc) : M (heap T) loc :=
  copy convert src (begin rhs) (end_ D1 D2 D3 rhs) (begin this) ;;;
  ret this.

(** ** std::reverse_iterator over raw pointers, and the rest of the
    iterator surface *)

(* reverse_iterator<T*> holds [current], the pointer one past the cell it
   denotes. *)
Record reverse_iterator := ReverseIterator { current : ptr }.

(* --p;  there is no pointer before the first cell of a block *)
Definition ptr_pred {S} (p : ptr) : M S ptr :=
  if off p =? 0 then undefined else ret (Ptr (blk p) (off p - 1)).

Section ReverseIterator.
Context {T : Type}.

(* operator*:  Iterator tmp = current;  return *--tmp; *)
Definition reverse_deref (r : reverse_iterator) : M (heap T) T :=
  tmp <- ptr_pred (current r) ;;
  load tmp.

(* operator++:  --current;  return *this; *)
Definition reverse_next (r : reverse_iterator) : M (heap T) reverse_iterator :=
  p <- ptr_pred (current r) ;;
  ret (ReverseIterator p).

(* for (r = first; r != last; ++r) out.push_back( *r );
   r != last compares the held pointers, so the walk takes
   first.current - last.current steps. *)
Fixpoint reverse_traverse_loop (n : nat) (r : reverse_iterator)
    : M (heap T) (list T) :=
  match n with
  | O => ret []
  | S n' =>
      v <- reverse_deref r ;;
      r' <- reverse_next r ;;
      vs <- reverse_traverse_loop n' r' ;;
      ret (v :: vs)
  end.

Definition reverse_traverse (first last : reverse_iterator)
    : M (heap T) (list T) :=
  n <- distance (current last) (current first) ;;
  reverse_traverse_loop n first.
End ReverseIterator.

Section array_3d_iterators.
Variables D1 D2 D3 : N.

(* const iterators: return **elems;  return begin() + size(); *)
Definition cbegin (this : loc) : ptr := elems this.
Definition cend (this : loc) : ptr := begin this +ₚ size D1 D2 D3.

(* reverse iterator support *)
Definition rbegin (this : loc) : reverse_iterator :=
  ReverseIterator (end_ D1 D2 D3 this).
Definition crbegin (this : loc) : reverse_iterator :=
  ReverseIterator (end_ D1 D2 D3 this).
Definition rend (this : loc) : reverse_iterator :=
  ReverseIterator (begin this).
Definition crend (this : loc) : reverse_iterator :=
  ReverseIterator (begin this).

(* The coordinates whose element sits at flat position p. *)
Definition coordinates_of (p : N) : N * N * N :=
  (p / (D2 * D3), (p / D3) mod D2, p mod D3).
End array_3d_iterators.

(* (i',j',k') comes before (i,j,k) when the coordinates are compared first
   to last *)
Definition coordinates_before (t' t : N * N * N) : Prop :=
  let '(i', j', k') := t' in
  let '(i, j, k) := t in
  i' < i \/ (i' = i /\ (j' < j \/ (j' = j /\ k' < k))).

(* a(dim1,dim2,dim3) = v  and  a.at(dim1,dim2,dim3) = v : assignment through
   the returned reference *)
Definition write_unchecked {T : Type} (D2 D3 : N)
    (this : loc) (dim1 dim2 dim3 : N) (v : T) : M (heap T) unit :=
  store (op_call D2 D3 this dim1 dim2 dim3) v.

Definition write_checked {T : Type} (D1 D2 D3 : N)
    (this : loc) (dim1 dim2 dim3 : N) (v : T) : M (heap T) unit :=
  p <- at_ D1 D2 D3 this dim1 dim2 dim3 ;;
  store p v.

(** ** Sequences the statements compare the code with *)

Section Sequences.
Context {T : Type}.

(* every pair of elements at the same position compares equal *)
Fixpoint all_equal `{EqualityComparable T} (a b : list T) : bool :=
  match a, b with
  | x :: a', y :: b' => eq_op x y && all_equal a' b'
  | _, _ => true
  end.

(* lexicographic order: the first position where one element is less than
   the other decides; a proper prefix is less *)
Fixpoint lex_less `{LessThanComparable T} (a b : list T) : bool :=
  match a, b with
  | x :: a', y :: b' =>
      if lt_op x y then true
      else if lt_op y x then false
      else lex_less a' b'
  | [], _ :: _ => true
  | _, [] => false
  end.
End Sequences.

(* 0, 1, ..., n-1 *)
Definition range (n : N) : list N := N.of_nat <$> seq 0 (N.to_nat n).

(* all coordinate triples of a D1 x D2 x D3 grid, the third coordinate
   varying fastest, then the second, then the first *)
Definition row_major (D1 D2 D3 : N) : list (N * N * N) :=
  i ← range D1; j ← range D2; k ← range D3; [(i, j, k)].

(** ** Concrete containers the statements are exercised on *)

Module Sample.
(* unsigned elements with their built-in == and < *)
#[export] Instance N_equality : EqualityComparable N := N.eqb.
#[export] Instance N_less : LessThanComparable N := N.ltb.

Definition a : loc := 1%positive.
Definition b : loc := 2%positive.
Definition c : loc := 3%positive.
Definition d : loc := 4%positive.

Definition cells_a : list N := [1; 2; 3; 4; 5; 6; 7; 8].
Definition cells_b : list N := [1; 2; 3; 4; 5; 6; 7; 9].

(* two array_3d<unsigned,2,2,2> objects and one array_3d<unsigned,1,1,1> *)
Definition objects : heap N := {[ a := cells_a; b := cells_b; c := [0] ]}.

(* a(0,0,0) = 1; a(0,0,1) = 2; ... a(1,1,1) = 8; on a 2x2x2 container *)
Definition sequential_writes : M (heap N) unit :=
  store (op_call 2 2 a 0 0 0) 1 ;;;
  store (op_call 2 2 a 0 0 1) 2 ;;;
  store (op_call 2 2 a 0 1 0) 3 ;;;
  store (op_call 2 2 a 0 1 1) 4 ;;;
  store (op_call 2 2 a 1 0 0) 5 ;;;
  store (op_call 2 2 a 1 0 1) 6 ;;;
  store (op_call 2 2 a 1 1 0) 7 ;;;
  store (op_call 2 2 a 1 1 1) 8.

(* a 2x2x2 container of zeros next to the others *)
Definition zeroed : heap N := <[a := replicate 8 0]> objects.

(* array_3d<int,2,2,2> converted into array_3d<double,2,2,2>: integers
   into a wider numeric type *)
Definition widen : N -> Z := Z.of_N.
Definition wide_objects : heap Z := {[ d := replicate 8 0%Z ]}.
End Sample.

(** * Properties *)

(** ** size_t arithmetic *)

Lemma wrap_small x : x < SizeT.modulus -> SizeT.wrap x = x.
Proof. intros Hx. unfold SizeT.wrap. by apply N.mod_small. Qed.

Lemma modulus_pos : 0 < SizeT.modulus.
Proof. reflexivity. Qed.

Lemma mul_mul_wrap a b c : SizeT.mul (SizeT.mul a b) c = SizeT.wrap (a * b * c).
Proof.
  unfold SizeT.mul, SizeT.wrap.
  apply N.Div0.mul_mod_idemp_l.
Qed.

Lemma sub_one d : 0 < d -> d < SizeT.modulus -> SizeT.sub d 1 = d - 1.
Proof.
  intros Hpos Hlt. unfold SizeT.sub, SizeT.wrap.
  replace (d + SizeT.modulus - 1) with ((d - 1) + 1 * SizeT.modulus) by lia.
  rewrite N.Div0.mod_add. apply N.mod_small. lia.
Qed.

Lemma size_product D1 D2 D3 :
  representable D1 D2 D3 -> size D1 D2 D3 = D1 * D2 * D3.
Proof.
  intros Hrep. unfold size. rewrite mul_mul_wrap. by apply wrap_small.
Qed.

Lemma factor_le_product a b c :
  0 < a -> 0 < b -> 0 < c -> a <= a * b * c /\ b <= a * b * c /\ c <= a * b * c.
Proof.
  intros Ha Hb Hc.
  assert (H1a : 1 <= a) by lia.
  assert (H1b : 1 <= b) by lia.
  assert (H1c : 1 <= c) by lia.
  repeat split.
  - replace a with (a * 1 * 1) at 1 by lia.
    apply N.mul_le_mono; [apply N.mul_le_mono|]; lia.
  - replace b with (1 * b * 1) at 1 by lia.
    apply N.mul_le_mono; [apply N.mul_le_mono|]; lia.
  - replace c with (1 * 1 * c) at 1 by lia.
    apply N.mul_le_mono; [apply N.mul_le_mono|]; lia.
Qed.

(** ** Cells of a block, seen as prefix ++ range ++ suffix *)

Section Cells.
Context {T : Type}.
Implicit Types (h : heap T) (b : loc) (pre l post : list T).

Lemma ptr_next {A} b (pre : list A) (x : A) :
  Ptr b (N.of_nat (length pre)) +ₚ 1 = Ptr b (N.of_nat (length (pre ++ [x]))).
Proof.
  unfold ptr_add; simpl. f_equal. rewrite length_app; simpl. lia.
Qed.

Lemma cell_middle h b pre x l :
  h !! b = Some (pre ++ x :: l) ->
  cell h (Ptr b (N.of_nat (length pre))) = Some x.
Proof.
  intros Hb. unfold cell; simpl. rewrite Hb, Nat2N.id.
  by apply list_lookup_middle.
Qed.

Lemma load_middle h b pre x l :
  h !! b = Some (pre ++ x :: l) ->
  load (Ptr b (N.of_nat (length pre))) h = Ret x h.
Proof.
  intros Hb. unfold load. by rewrite (cell_middle _ _ _ _ _ Hb).
Qed.

Lemma store_middle h b pre x l v :
  h !! b = Some (pre ++ x :: l) ->
  store (Ptr b (N.of_nat (length pre))) v h = Ret tt (<[b := pre ++ v :: l]> h).
Proof.
  intros Hb. unfold store; simpl. rewrite Hb, Nat2N.id.
  rewrite decide_True by (rewrite length_app; simpl; lia).
  rewrite insert_app_r_alt by lia.
  by rewrite Nat.sub_diag.
Qed.

Lemma snoc_app pre x l : (pre ++ [x]) ++ l = pre ++ x :: l.
Proof. by rewrite <- app_assoc. Qed.

Lemma distance_begin_end {S} b (n : N) (s : S) :
  distance (Ptr b 0) (Ptr b 0 +ₚ n) s = Ret (N.to_nat n) s.
Proof.
  unfold distance, ptr_add; simpl.
  rewrite decide_True by done.
  destruct (N.leb_spec 0 (0 + n)); [|lia].
  unfold ret. do 2 f_equal. lia.
Qed.
End Cells.

(** ** The loops, over a range of cells *)

Section Loops.
Context {T : Type}.
Implicit Types (h : heap T) (b : loc) (pre l post : list T).

Lemma traverse_loop_range h b l : forall pre post,
  h !! b = Some (pre ++ l ++ post) ->
  traverse_loop (length l) (Ptr b (N.of_nat (length pre))) h = Ret l h.
Proof.
  induction l as [|x l IH]; intros pre post Hb; simpl; [done|].
  unfold bind at 1. rewrite (load_middle _ _ _ _ _ Hb).
  unfold bind at 1. rewrite (ptr_next _ _ x).
  rewrite (IH (pre ++ [x]) post) by (by rewrite snoc_app).
  done.
Qed.

Lemma fill_n_loop_range v l : forall h b pre post,
  h !! b = Some (pre ++ l ++ post) ->
  fill_n_loop (length l) (Ptr b (N.of_nat (length pre))) v h
  = Ret (Ptr b (N.of_nat (length pre + length l)))
        (<[b := pre ++ replicate (length l) v ++ post]> h).
Proof.
  induction l as [|x l IH]; intros h b pre post Hb; simpl.
  - unfold ret. rewrite Nat.add_0_r. f_equal. symmetry. by apply insert_id.
  - unfold bind. rewrite (store_middle _ _ _ _ _ v Hb).
    rewrite (ptr_next _ _ v).
    rewrite (IH _ b (pre ++ [v]) post)
      by (rewrite lookup_insert_eq; by rewrite snoc_app).
    rewrite insert_insert_eq, snoc_app.
    rewrite length_app; simpl. do 3 f_equal. lia.
Qed.

(* Two ranges of different blocks exchange their cells. *)
Lemma swap_ranges_loop_range l1 : forall l2 h b1 b2 pre1 post1 pre2 post2,
  b1 <> b2 ->
  length l1 = length l2 ->
  h !! b1 = Some (pre1 ++ l1 ++ post1) ->
  h !! b2 = Some (pre2 ++ l2 ++ post2) ->
  swap_ranges_loop (length l1)
    (Ptr b1 (N.of_nat (length pre1))) (Ptr b2 (N.of_nat (length pre2))) h
  = Ret (Ptr b2 (N.of_nat (length pre2 + length l2)))
        (<[b2 := pre2 ++ l1 ++ post2]> (<[b1 := pre1 ++ l2 ++ post1]> h)).
Proof.
  induction l1 as [|x l1 IH];
    intros [|y l2] h b1 b2 pre1 post1 pre2 post2 Hne Hlen H1 H2;
    simpl in *; try discriminate.
  - unfold ret. rewrite Nat.add_0_r. f_equal.
    rewrite (insert_id h b1) by done. symmetry. by apply insert_id.
  - unfold bind at 1. unfold iter_swap.
    unfold bind at 1. rewrite (load_middle _ _ _ _ _ H1).
    unfold bind at 1. rewrite (load_middle _ _ _ _ _ H2).
    unfold bind at 1. rewrite (store_middle _ _ _ _ _ y H1).
    rewrite (store_middle _ b2 pre2 y (l2 ++ post2) x)
      by (by rewrite lookup_insert_ne).
    rewrite (ptr_next _ _ y), (ptr_next _ _ x).
    rewrite (IH l2 _ b1 b2 (pre1 ++ [y]) post1 (pre2 ++ [x]) post2);
      [|done|lia| |].
    + rewrite !snoc_app, length_app; simpl.
      f_equal; [f_equal; lia|].
      apply map_eq; intros i.
      destruct (decide (i = b2)) as [->|]; [by rewrite !lookup_insert_eq|].
      rewrite !(lookup_insert_ne _ b2) by done.
      destruct (decide (i = b1)) as [->|]; [by rewrite !lookup_insert_eq|].
      by rewrite !lookup_insert_ne by done.
    + rewrite lookup_insert_ne by done.
      by rewrite lookup_insert_eq, snoc_app.
    + by rewrite lookup_insert_eq, snoc_app.
Qed.

(* A range swapped with itself keeps its cells. *)
Lemma swap_ranges_loop_self l : forall h b pre post,
  h !! b = Some (pre ++ l ++ post) ->
  swap_ranges_loop (length l)
    (Ptr b (N.of_nat (length pre))) (Ptr b (N.of_nat (length pre))) h
  = Ret (Ptr b (N.of_nat (length pre + length l))) h.
Proof.
  induction l as [|x l IH]; intros h b pre post Hb; simpl.
  - unfold ret. by rewrite Nat.add_0_r.
  - unfold bind at 1. unfold iter_swap.
    unfold bind at 1. rewrite (load_middle _ _ _ _ _ Hb).
    unfold bind at 1. rewrite (load_middle _ _ _ _ _ Hb).
    unfold bind at 1. rewrite (store_middle _ _ _ _ _ x Hb).
    rewrite (store_middle _ b pre x (l ++ post) x)
      by (by rewrite lookup_insert_eq).
    rewrite insert_insert_eq, (insert_id h b) by done.
    rewrite (ptr_next _ _ x).
    rewrite (IH h b (pre ++ [x]) post) by (by rewrite snoc_app).
    rewrite length_app; simpl. do 3 f_equal. lia.
Qed.

Lemma equal_loop_range `{EqualityComparable T} l1 :
  forall l2 h b1 b2 pre1 post1 pre2 post2,
  length l1 = length l2 ->
  h !! b1 = Some (pre1 ++ l1 ++ post1) ->
  h !! b2 = Some (pre2 ++ l2 ++ post2) ->
  equal_loop (length l1)
    (Ptr b1 (N.of_nat (length pre1))) (Ptr b2 (N.of_nat (length pre2))) h
  = Ret (all_equal l1 l2) h.
Proof.
  induction l1 as [|x l1 IH];
    intros [|y l2] h b1 b2 pre1 post1 pre2 post2 Hlen H1 H2;
    simpl in *; try discriminate; [done|].
  unfold bind at 1. rewrite (load_middle _ _ _ _ _ H1).
  unfold bind at 1. rewrite (load_middle _ _ _ _ _ H2).
  destruct (eq_op x y); simpl; [|done].
  rewrite (ptr_next _ _ x), (ptr_next _ _ y).
  apply (IH l2 h b1 b2 (pre1 ++ [x]) post1 (pre2 ++ [y]) post2);
    [lia|by rewrite snoc_app..].
Qed.

Lemma lexicographical_compare_loop_range `{LessThanComparable T} l1 :
  forall l2 h b1 b2 pre1 post1 pre2 post2,
  h !! b1 = Some (pre1 ++ l1 ++ post1) ->
  h !! b2 = Some (pre2 ++ l2 ++ post2) ->
  lexicographical_compare_loop (length l1) (length l2)
    (Ptr b1 (N.of_nat (length pre1))) (Ptr b2 (N.of_nat (length pre2))) h
  = Ret (lex_less l1 l2) h.
Proof.
  induction l1 as [|x l1 IH];
    intros [|y l2] h b1 b2 pre1 post1 pre2 post2 H1 H2;
    simpl in *; try done.
  unfold bind at 1. rewrite (load_middle _ _ _ _ _ H1).
  unfold bind at 1. rewrite (load_middle _ _ _ _ _ H2).
  destruct (lt_op x y); [done|].
  destruct (lt_op y x); [done|].
  rewrite (ptr_next _ _ x), (ptr_next _ _ y).
  apply (IH l2 h b1 b2 (pre1 ++ [x]) post1 (pre2 ++ [y]) post2);
    by rewrite snoc_app.
Qed.
End Loops.

Section CopyLoop.
Context {T2 T : Type} (convert : T2 -> T) (src : heap T2).

Lemma copy_loop_range (ls : list T2) :
  forall (l : list T) (h : heap T) bs b pres posts pre post,
  length ls = length l ->
  src !! bs = Some (pres ++ ls ++ posts) ->
  h !! b = Some (pre ++ l ++ post) ->
  copy_loop convert src (length ls)
    (Ptr bs (N.of_nat (length pres))) (Ptr b (N.of_nat (length pre))) h
  = Ret (Ptr b (N.of_nat (length pre + length l)))
        (<[b := pre ++ (convert <$> ls) ++ post]> h).
Proof.
  induction ls as [|x ls IH];
    intros [|y l] h bs b pres posts pre post Hlen Hs Hd;
    simpl in *; try discriminate.
  - unfold ret. rewrite Nat.add_0_r. f_equal. symmetry. by apply insert_id.
  - unfold bind at 1. unfold load_src.
    rewrite (cell_middle _ _ _ _ _ Hs); simpl.
    unfold bind at 1. rewrite (store_middle _ _ _ _ _ (convert x) Hd).
    rewrite (ptr_next _ _ x), (ptr_next _ _ (convert x)).
    rewrite (IH l _ bs b (pres ++ [x]) posts (pre ++ [convert x]) post);
      [|lia|by rewrite snoc_app|by rewrite lookup_insert_eq, snoc_app].
    rewrite insert_insert_eq, snoc_app, length_app; simpl.
    do 3 f_equal. lia.
Qed.
End CopyLoop.

(** ** Coordinates and flat positions *)

Section Layout.
Context {T : Type}.
Variables D1 D2 D3 : N.
Implicit Types (h : heap T) (this : loc) (cells : list T).

Lemma flat_index_bound i j k :
  i < D1 -> j < D2 -> k < D3 -> flat_index D2 D3 i j k < D1 * D2 * D3.
Proof.
  intros Hi Hj Hk. unfold flat_index.
  assert (Hrow : (j + 1) * D3 <= D2 * D3)
    by (apply N.mul_le_mono_r; lia).
  assert (Hslab : (i + 1) * (D2 * D3) <= D1 * (D2 * D3))
    by (apply N.mul_le_mono_r; lia).
  lia.
Qed.

Lemma elems_sub_flat this i j k :
  elems_sub D2 D3 this i j k = Ptr this (flat_index D2 D3 i j k).
Proof.
  unfold elems_sub, elems, ptr_add, flat_index; simpl. f_equal. lia.
Qed.

Lemma cell_elems_sub h this cells i j k :
  array_at D1 D2 D3 h this cells ->
  cell h (elems_sub D2 D3 this i j k)
  = cells !! N.to_nat (flat_index D2 D3 i j k).
Proof.
  intros [Hb _]. rewrite elems_sub_flat. unfold cell; simpl. by rewrite Hb.
Qed.

Lemma lookup_valid cells (n : N) :
  length cells = N.to_nat (D1 * D2 * D3) ->
  n < D1 * D2 * D3 -> is_Some (cells !! N.to_nat n).
Proof. intros Hlen Hn. apply lookup_lt_is_Some. lia. Qed.

Lemma load_elems_sub h this cells i j k :
  array_at D1 D2 D3 h this cells ->
  load (elems_sub D2 D3 this i j k) h
  = lift_option (cells !! N.to_nat (flat_index D2 D3 i j k)) h.
Proof.
  intros Harr. unfold load. by rewrite (cell_elems_sub _ _ _ _ _ _ Harr).
Qed.
End Layout.

(** ** The claims *)

Section Access.
Context {T : Type}.
Variables D1 D2 D3 : N.
Implicit Types (h : heap T) (this : loc) (cells : list T).

Lemma at_out_of_range h this i j k :
  D1 <= i \/ D2 <= j \/ D3 <= k ->
  at_ D1 D2 D3 this i j k h
  = Throw (out_of_range "array_3d: index out of range") h.
Proof.
  intros Hout. unfold at_.
  destruct (N.leb_spec D1 i), (N.leb_spec D2 j), (N.leb_spec D3 k);
    simpl; try done.
  lia.
Qed.

Lemma at_in_range h this i j k :
  i < D1 -> j < D2 -> k < D3 ->
  at_ D1 D2 D3 this i j k h = Ret (op_call D2 D3 this i j k) h.
Proof.
  intros Hi Hj Hk. unfold at_.
  destruct (N.leb_spec D1 i), (N.leb_spec D2 j), (N.leb_spec D3 k);
    simpl; try lia.
  done.
Qed.

(** C1.  at(i,j,k) throws std::out_of_range, with the message
    "array_3d: index out of range", exactly when D1 <= i or D2 <= j or
    D3 <= k.  For i < D1, j < D2, k < D3 it returns the reference
    operator()(i,j,k) returns, and reading through either gives the
    element at flat position i*D2*D3 + j*D3 + k of the container. *)
Theorem at_range_checked h this cells i j k :
  array_at D1 D2 D3 h this cells ->
  ((exists e h', at_ D1 D2 D3 this i j k h = Throw e h')
     <-> (D1 <= i \/ D2 <= j \/ D3 <= k)) /\
  (D1 <= i \/ D2 <= j \/ D3 <= k ->
     at_ D1 D2 D3 this i j k h
     = Throw (out_of_range "array_3d: index out of range") h) /\
  (i < D1 -> j < D2 -> k < D3 ->
     at_ D1 D2 D3 this i j k h = Ret (op_call D2 D3 this i j k) h /\
     exists v,
       cells !! N.to_nat (flat_index D2 D3 i j k) = Some v /\
       value_of (at_ D1 D2 D3 this i j k) h = Ret v h /\
       load (op_call D2 D3 this i j k) h = Ret v h).
Proof.
  intros Harr. split; [split|split].
  - intros (e & h' & Hthrow).
    destruct (N.lt_ge_cases i D1) as [Hi|]; [|by left].
    destruct (N.lt_ge_cases j D2) as [Hj|]; [|by right; left].
    destruct (N.lt_ge_cases k D3) as [Hk|]; [|by right; right].
    by rewrite at_in_range in Hthrow.
  - intros Hout. eexists _, _. by apply at_out_of_range.
  - apply at_out_of_range.
  - intros Hi Hj Hk. split; [by apply at_in_range|].
    destruct (lookup_valid D1 D2 D3 cells (flat_index D2 D3 i j k))
      as [v Hv]; [apply Harr|by apply flat_index_bound|].
    exists v. split; [done|].
    unfold value_of, bind. rewrite at_in_range by done.
    unfold op_call. rewrite (load_elems_sub D1 D2 D3 h this cells) by exact Harr.
    rewrite Hv.
    done.
Qed.

(** C9.  A call of at(i,j,k) leaves the heap, and so every element of the
    container, as it was: on the path that returns and on the path that
    throws.  Reading the element through the returned reference changes
    nothing either. *)
Theorem at_preserves_elements h this i j k :
  final_state (at_ D1 D2 D3 this i j k h) = Some h /\
  (D1 <= i \/ D2 <= j \/ D3 <= k ->
     exists e, at_ D1 D2 D3 this i j k h = Throw e h) /\
  (forall cells, array_at D1 D2 D3 h this cells ->
     final_state (value_of (at_ D1 D2 D3 this i j k) h) = Some h).
Proof.
  split; [|split].
  - unfold at_. by destruct (_ || _).
  - intros Hout. eexists. by apply at_out_of_range.
  - intros cells Harr. unfold value_of, bind.
    destruct (N.lt_ge_cases i D1) as [Hi|];
      [|by rewrite at_out_of_range by (by left)].
    destruct (N.lt_ge_cases j D2) as [Hj|];
      [|by rewrite at_out_of_range by (by right; left)].
    destruct (N.lt_ge_cases k D3) as [Hk|];
      [|by rewrite at_out_of_range by (by right; right)].
    rewrite at_in_range by done.
    unfold op_call. rewrite (load_elems_sub D1 D2 D3 h this cells) by exact Harr.
    destruct (lookup_valid D1 D2 D3 cells (flat_index D2 D3 i j k))
      as [v Hv]; [apply Harr|by apply flat_index_bound|].
    by rewrite Hv.
Qed.
End Access.

Section RowMajor.
Lemma bind_range_blocks {X} (g : N -> list X) (F : X -> nat)
    (D : N) (d base : nat) :
  (forall i, F <$> g i = seq (base + N.to_nat i * d) d) ->
  F <$> (range D ≫= g) = seq base (N.to_nat D * d).
Proof.
  intros Hblock. unfold range.
  induction (N.to_nat D) as [|n IH]; [done|].
  rewrite seq_S, fmap_app, bind_app, fmap_app, IH; simpl.
  rewrite app_nil_r, Hblock, Nat2N.id.
  rewrite (Nat.add_comm d), seq_app. done.
Qed.

Lemma lookup_all {A} (l : list A) : (fun n => l !! n) <$> seq 0 (length l) = Some <$> l.
Proof.
  apply list_eq; intros p. rewrite !list_lookup_fmap.
  destruct (decide (p < length l)%nat) as [Hp|Hp].
  - rewrite lookup_seq_lt by done; simpl.
    destruct (lookup_lt_is_Some_2 l p Hp) as [x Hx]. by rewrite Hx.
  - rewrite lookup_seq_ge by lia; simpl.
    by rewrite lookup_ge_None_2 by lia.
Qed.

Lemma row_major_flat D1 D2 D3 :
  (fun '(i, j, k) => N.to_nat (flat_index D2 D3 i j k)) <$> row_major D1 D2 D3
  = seq 0 (N.to_nat (D1 * D2 * D3)).
Proof.
  unfold row_major.
  replace (N.to_nat (D1 * D2 * D3))
    with (N.to_nat D1 * (N.to_nat D2 * N.to_nat D3))%nat by lia.
  apply bind_range_blocks; intros i.
  apply bind_range_blocks; intros j.
  rewrite <- (Nat.mul_1_r (N.to_nat D3)).
  apply bind_range_blocks; intros k; simpl.
  f_equal. unfold flat_index. lia.
Qed.
End RowMajor.

Section Iteration.
Context {T : Type}.
Variables D1 D2 D3 : N.
Implicit Types (h : heap T) (this : loc) (cells : list T).

Lemma traverse_cells h this cells :
  representable D1 D2 D3 ->
  array_at D1 D2 D3 h this cells ->
  traverse (begin this) (end_ D1 D2 D3 this) h = Ret cells h.
Proof.
  intros Hrep [Hb Hlen]. unfold traverse, end_, begin, elems, bind.
  rewrite distance_begin_end, size_product, <- Hlen by done.
  apply (traverse_loop_range h this cells [] []).
  by rewrite app_nil_r.
Qed.

Lemma back_last_position :
  representable D1 D2 D3 -> 0 < D1 -> 0 < D2 -> 0 < D3 ->
  forall this,
  back D1 D2 D3 this = elems_sub D2 D3 this (D1 - 1) (D2 - 1) (D3 - 1) /\
  flat_index D2 D3 (D1 - 1) (D2 - 1) (D3 - 1) = D1 * D2 * D3 - 1.
Proof.
  intros Hrep H1 H2 H3 this.
  destruct (factor_le_product D1 D2 D3) as (Hle1 & Hle2 & Hle3); [done..|].
  unfold representable in Hrep. split.
  - unfold back. by rewrite !sub_one by lia.
  - unfold flat_index.
    assert (E1 : D1 = (D1 - 1) + 1) by lia.
    assert (E2 : D2 = (D2 - 1) + 1) by lia.
    assert (E3 : D3 = (D3 - 1) + 1) by lia.
    revert E1 E2 E3.
    generalize (D1 - 1), (D2 - 1), (D3 - 1). intros a b c -> -> ->. lia.
Qed.

(** C2.  Walking an iterator from begin() to end() yields the cells of the
    container, size() = D1*D2*D3 of them.  The element at coordinates
    (i,j,k) is the one yielded at position i*D2*D3 + j*D3 + k, so the walk
    is the coordinate loop nest with the third coordinate innermost.
    front() refers to the first element yielded and back(), the element at
    (D1-1,D2-1,D3-1), to the last. *)
Theorem iteration_row_major h this cells :
  representable D1 D2 D3 ->
  array_at D1 D2 D3 h this cells ->
  traverse (begin this) (end_ D1 D2 D3 this) h = Ret cells h /\
  length cells = N.to_nat (size D1 D2 D3) /\
  size D1 D2 D3 = D1 * D2 * D3 /\
  (forall i j k, i < D1 -> j < D2 -> k < D3 ->
     exists v,
       cells !! N.to_nat (i * D2 * D3 + j * D3 + k) = Some v /\
       load (op_call D2 D3 this i j k) h = Ret v h) /\
  (fun '(i, j, k) => cell h (op_call D2 D3 this i j k))
    <$> row_major D1 D2 D3 = Some <$> cells /\
  load (front D2 D3 this) h = lift_option (head cells) h /\
  load (back D1 D2 D3 this) h = lift_option (last cells) h /\
  (0 < D1 -> 0 < D2 -> 0 < D3 ->
     back D1 D2 D3 this = op_call D2 D3 this (D1 - 1) (D2 - 1) (D3 - 1) /\
     is_Some (head cells) /\ is_Some (last cells)).
Proof.
  intros Hrep Harr. pose proof Harr as [Hb Hlen].
  split; [by apply traverse_cells|].
  split; [by rewrite size_product|].
  split; [by apply size_product|].
  split; [|split; [|split; [|split]]].
  - intros i j k Hi Hj Hk.
    destruct (lookup_valid D1 D2 D3 cells (flat_index D2 D3 i j k))
      as [v Hv]; [done|by apply flat_index_bound|].
    exists v. split; [done|]. unfold op_call.
    rewrite (load_elems_sub D1 D2 D3 h this cells) by done.
    by rewrite Hv.
  - rewrite <- lookup_all, Hlen, <- row_major_flat, <- list_fmap_compose.
    apply list_fmap_ext; intros _ [[i j] k] _; simpl.
    unfold op_call. by apply (cell_elems_sub D1 D2 D3 h this cells).
  - unfold front. rewrite (load_elems_sub D1 D2 D3 h this cells) by done.
    by rewrite head_lookup.
  - rewrite last_lookup.
    destruct (N.eq_0_gt_0_cases (D1 * D2 * D3)) as [Hz|Hpos].
    + assert (cells = []) as -> by (apply nil_length_inv; lia).
      unfold back. rewrite elems_sub_flat. unfold load, cell; simpl.
      rewrite Hb. by rewrite !lookup_nil.
    + assert (0 < D1 /\ 0 < D2 /\ 0 < D3) as (H1 & H2 & H3) by lia.
      destruct (back_last_position Hrep H1 H2 H3 this) as [-> Hflat].
      rewrite (load_elems_sub D1 D2 D3 h this cells) by done.
      rewrite Hflat. do 2 f_equal. lia.
  - intros H1 H2 H3.
    destruct (back_last_position Hrep H1 H2 H3 this) as [-> _].
    split; [done|].
    assert (0 < D1 * D2 * D3) by lia.
    rewrite head_lookup, last_lookup.
    split; apply lookup_lt_is_Some; lia.
Qed.
End Iteration.

Section Capacity.
Variables D1 D2 D3 : N.

(** C8.  size() and max_size() return D1*D2*D3; size_1d(), size_2d() and
    size_3d() return D1, D2 and D3; empty() returns false whatever the
    dimensions are, also when one of them is zero and size() is 0. *)
Theorem capacity_queries :
  representable D1 D2 D3 ->
  size D1 D2 D3 = D1 * D2 * D3 /\
  max_size D1 D2 D3 = D1 * D2 * D3 /\
  size_1d D1 = D1 /\ size_2d D2 = D2 /\ size_3d D3 = D3 /\
  empty = false /\
  (D1 = 0 \/ D2 = 0 \/ D3 = 0 -> size D1 D2 D3 = 0 /\ empty = false).
Proof.
  intros Hrep.
  split; [by apply size_product|].
  split; [by apply size_product|].
  do 4 (split; [done|]).
  intros Hzero. split; [|done].
  rewrite size_product by done.
  destruct Hzero as [Hz | [Hz | Hz]]; rewrite Hz; lia.
Qed.
End Capacity.

Section Bulk.
Context {T : Type}.
Variables D1 D2 D3 : N.
Implicit Types (h : heap T) (this x y : loc) (cells a b : list T).

Lemma fill_cells h this cells v :
  representable D1 D2 D3 ->
  array_at D1 D2 D3 h this cells ->
  fill D1 D2 D3 this v h
  = Ret tt (<[this := replicate (N.to_nat (D1 * D2 * D3)) v]> h).
Proof.
  intros Hrep [Hb Hlen]. unfold fill, fill_n, bind.
  rewrite elems_sub_flat, size_product, <- Hlen by done.
  change (flat_index D2 D3 0 0 0) with (N.of_nat (length (@nil T))).
  rewrite (fill_n_loop_range v cells h this [] [])
    by (by rewrite app_nil_r).
  simpl. by rewrite app_nil_r.
Qed.

Lemma array_at_insert h this cells :
  length cells = N.to_nat (D1 * D2 * D3) ->
  array_at D1 D2 D3 (<[this := cells]> h) this cells.
Proof. intros Hlen. split; [apply lookup_insert_eq|done]. Qed.

(** C6.  fill(v) stores v in each of the D1*D2*D3 cells and touches no
    other object.  Afterwards a walk from begin() to end() yields v at
    every position, every coordinate access reads v, and front() and
    back() read v whenever the container has an element (in particular
    for D1 = D2 = D3 = 1).  assign(v) is fill(v). *)
Theorem fill_assigns_every_element h this cells v :
  representable D1 D2 D3 ->
  array_at D1 D2 D3 h this cells ->
  let filled := replicate (N.to_nat (D1 * D2 * D3)) v in
  let h' := <[this := filled]> h in
  fill D1 D2 D3 this v h = Ret tt h' /\
  assign D1 D2 D3 this v h = fill D1 D2 D3 this v h /\
  traverse (begin this) (end_ D1 D2 D3 this) h' = Ret filled h' /\
  (forall p w, filled !! p = Some w -> w = v) /\
  (forall i j k, i < D1 -> j < D2 -> k < D3 ->
     load (op_call D2 D3 this i j k) h' = Ret v h') /\
  (0 < D1 -> 0 < D2 -> 0 < D3 ->
     load (front D2 D3 this) h' = Ret v h' /\
     load (back D1 D2 D3 this) h' = Ret v h').
Proof.
  intros Hrep Harr filled h'.
  assert (Hlen' : length filled = N.to_nat (D1 * D2 * D3))
    by apply length_replicate.
  assert (Harr' : array_at D1 D2 D3 h' this filled)
    by (by apply array_at_insert).
  assert (Hread : forall i j k, i < D1 -> j < D2 -> k < D3 ->
            load (elems_sub D2 D3 this i j k) h' = Ret v h').
  { intros i j k Hi Hj Hk.
    rewrite (load_elems_sub D1 D2 D3 h' this filled) by done.
    unfold filled. rewrite lookup_replicate_2; [done|].
    pose proof (flat_index_bound D1 D2 D3 i j k Hi Hj Hk). lia. }
  split; [by apply (fill_cells h this cells)|].
  split; [done|].
  split; [by apply traverse_cells|].
  split; [intros p w Hw; by apply lookup_replicate in Hw as [-> _]|].
  split; [exact Hread|].
  intros H1 H2 H3. split.
  - by apply Hread.
  - destruct (back_last_position D1 D2 D3 Hrep H1 H2 H3 this) as [-> _].
    apply Hread; lia.
Qed.

Lemma swap_cells h x y a b :
  representable D1 D2 D3 ->
  x <> y ->
  array_at D1 D2 D3 h x a ->
  array_at D1 D2 D3 h y b ->
  swap D1 D2 D3 x y h = Ret tt (<[y := a]> (<[x := b]> h)).
Proof.
  intros Hrep Hne [Hx Hlena] [Hy Hlenb]. unfold swap, swap_ranges, bind.
  unfold end_, begin, elems.
  rewrite distance_begin_end, size_product, <- Hlena by done.
  change 0 with (N.of_nat (length (@nil T))).
  rewrite (swap_ranges_loop_range a b h x y [] [] [] []);
    [|done|lia|by rewrite app_nil_r..].
  simpl. by rewrite !app_nil_r.
Qed.

(** C7.  For two different containers, swap leaves in each the cells the
    other one held, at every flat position, and leaves every other object
    alone; swapping the same pair again restores the heap. *)
Theorem swap_exchanges_contents h x y a b :
  representable D1 D2 D3 ->
  x <> y ->
  array_at D1 D2 D3 h x a ->
  array_at D1 D2 D3 h y b ->
  let h' := <[y := a]> (<[x := b]> h) in
  swap D1 D2 D3 x y h = Ret tt h' /\
  array_at D1 D2 D3 h' x b /\
  array_at D1 D2 D3 h' y a /\
  (forall p, h' !! x ≫= (.!! p) = b !! p /\ h' !! y ≫= (.!! p) = a !! p) /\
  (forall z, z <> x -> z <> y -> h' !! z = h !! z) /\
  (swap D1 D2 D3 x y ;;; swap D1 D2 D3 x y) h = Ret tt h.
Proof.
  intros Hrep Hne Ha Hb h'.
  assert (Hx' : h' !! x = Some b).
  { unfold h'. rewrite lookup_insert_ne by done. apply lookup_insert_eq. }
  assert (Hy' : h' !! y = Some a) by apply lookup_insert_eq.
  assert (Ha' : array_at D1 D2 D3 h' x b) by (split; [done|apply Hb]).
  assert (Hb' : array_at D1 D2 D3 h' y a) by (split; [done|apply Ha]).
  split; [by apply swap_cells|].
  do 2 (split; [done|]).
  split; [intros p; by rewrite Hx', Hy'|].
  split.
  - intros z Hzx Hzy. unfold h'. by rewrite !lookup_insert_ne.
  - unfold bind. rewrite (swap_cells h x y a b) by done.
    fold h'. rewrite (swap_cells h' x y b a) by done.
    f_equal. apply map_eq; intros z.
    destruct Ha as [Hx _], Hb as [Hy _].
    destruct (decide (z = y)) as [->|]; [by rewrite lookup_insert_eq|].
    rewrite lookup_insert_ne by done.
    destruct (decide (z = x)) as [->|]; [by rewrite lookup_insert_eq|].
    rewrite lookup_insert_ne by done.
    unfold h'. by rewrite !lookup_insert_ne.
Qed.

(** C10.  a.swap(a) returns with the heap unchanged, so every element of a
    is what it was. *)
Theorem swap_self_noop h x a :
  representable D1 D2 D3 ->
  array_at D1 D2 D3 h x a ->
  swap D1 D2 D3 x x h = Ret tt h.
Proof.
  intros Hrep [Hx Hlen]. unfold swap, swap_ranges, bind.
  unfold end_, begin, elems.
  rewrite distance_begin_end, size_product, <- Hlen by done.
  change 0 with (N.of_nat (length (@nil T))).
  rewrite (swap_ranges_loop_self a h x [] []) by (by rewrite app_nil_r).
  done.
Qed.
End Bulk.

Section ConvertingAssignment.
Context {T2 T : Type}.
Variables D1 D2 D3 : N.
Variable convert : T2 -> T.

(** C3.  this = rhs, for rhs of another element type and the same
    dimensions, stores in every cell of the destination the conversion
    of the source cell at the same flat position, hence at the same
    coordinates; the source and every other object are left alone. *)
Theorem converting_assignment
    (src : heap T2) (h : heap T) (this rhs : loc)
    (cs : list T2) (cd : list T) :
  representable D1 D2 D3 ->
  array_at D1 D2 D3 src rhs cs ->
  array_at D1 D2 D3 h this cd ->
  let h' := <[this := convert <$> cs]> h in
  op_assign D1 D2 D3 convert src this rhs h = Ret this h' /\
  array_at D1 D2 D3 h' this (convert <$> cs) /\
  (forall p, h' !! this ≫= (.!! p) = convert <$> (cs !! p)) /\
  (forall i j k, i < D1 -> j < D2 -> k < D3 ->
     cell h' (op_call D2 D3 this i j k)
     = convert <$> cell src (op_call D2 D3 rhs i j k)) /\
  (forall z, z <> this -> h' !! z = h !! z).
Proof.
  intros Hrep Hsrc Hdst h'.
  assert (Hlen' : length (convert <$> cs) = N.to_nat (D1 * D2 * D3))
    by (rewrite length_fmap; apply Hsrc).
  assert (Harr' : array_at D1 D2 D3 h' this (convert <$> cs))
    by (by apply array_at_insert).
  destruct Hsrc as [Hs Hlens], Hdst as [Hd Hlend].
  split; [|split; [done|split; [|split]]].
  - unfold op_assign, copy, bind, end_, begin, elems.
    rewrite distance_begin_end, size_product, <- Hlens by done.
    change 0 with (N.of_nat (length (@nil T2))) at 1.
    change 0 with (N.of_nat (length (@nil T))).
    rewrite (copy_loop_range convert src cs cd h rhs this [] [] [] []);
      [|lia|by rewrite app_nil_r..].
    simpl. by rewrite app_nil_r.
  - intros p. unfold h'. rewrite lookup_insert_eq; simpl.
    apply list_lookup_fmap.
  - intros i j k Hi Hj Hk. unfold op_call.
    rewrite (cell_elems_sub D1 D2 D3 h' this (convert <$> cs)) by done.
    rewrite (cell_elems_sub D1 D2 D3 src rhs cs) by done.
    apply list_lookup_fmap.
  - intros z Hz. unfold h'. by rewrite lookup_insert_ne.
Qed.
End ConvertingAssignment.

(** ** Comparing two sequences *)

Section Comparing.
Context {T : Type}.
Implicit Types (a b c : list T).

Lemma all_equal_lookup `{EqualityComparable T} a : forall b,
  length a = length b ->
  all_equal a b = true <->
  (forall p va vb, a !! p = Some va -> b !! p = Some vb -> eq_op va vb = true).
Proof.
  induction a as [|x a IH]; intros [|y b] Hlen; simpl in *; try discriminate.
  - split; [|done]. intros _ p va vb Hva. by rewrite lookup_nil in Hva.
  - rewrite andb_true_iff, IH by lia. split.
    + intros [Hxy Hrest] [|p] va vb Hva Hvb; simpl in *.
      * by simplify_eq.
      * by apply (Hrest p).
    + intros Hall. split; [by apply (Hall 0%nat)|].
      intros p va vb Hva Hvb. by apply (Hall (S p)).
Qed.

Lemma all_equal_refl `{EqualityComparable T} a :
  (forall v, eq_op v v = true) -> all_equal a a = true.
Proof. intros Hrefl. induction a as [|x a IH]; simpl; [done|]. by rewrite Hrefl. Qed.

Lemma all_equal_sym `{EqualityComparable T} a : forall b,
  (forall u v, eq_op u v = true -> eq_op v u = true) ->
  all_equal a b = all_equal b a.
Proof.
  intros b Hsym. revert b.
  induction a as [|x a IH]; intros [|y b]; simpl; try done.
  rewrite IH. f_equal.
  destruct (eq_op x y) eqn:Hxy, (eq_op y x) eqn:Hyx; try done.
  - apply Hsym in Hxy. congruence.
  - apply Hsym in Hyx. congruence.
Qed.

Lemma all_equal_trans `{EqualityComparable T} a : forall b c,
  (forall u v w, eq_op u v = true -> eq_op v w = true -> eq_op u w = true) ->
  length a = length b ->
  all_equal a b = true -> all_equal b c = true -> all_equal a c = true.
Proof.
  intros b c Htrans. revert b c.
  induction a as [|x a IH]; intros [|y b] [|z c] Hlen;
    simpl in *; try done.
  rewrite !andb_true_iff. intros [Hxy Hab] [Hyz Hbc]. split.
  - by apply (Htrans x y z).
  - apply (IH b c); [lia|done..].
Qed.

(* The first position where one element is less than the other decides. *)
Lemma lex_less_first_difference `{LessThanComparable T} a :
  forall b p va vb,
  a !! p = Some va -> b !! p = Some vb ->
  (forall q ua ub, (q < p)%nat -> a !! q = Some ua -> b !! q = Some ub ->
     lt_op ua ub = false /\ lt_op ub ua = false) ->
  lex_less a b
  = if lt_op va vb then true
    else if lt_op vb va then false
    else lex_less (drop (S p) a) (drop (S p) b).
Proof.
  induction a as [|x a IH]; intros [|y b] [|p] va vb Hva Hvb Hsame;
    simpl in *; try done.
  - by simplify_eq.
  - destruct (Hsame 0%nat x y) as [-> ->]; [lia|done..|].
    apply IH; [done..|].
    intros q ua ub Hq Hua Hub. apply (Hsame (S q)); [lia|done..].
Qed.

Lemma lex_less_no_difference `{LessThanComparable T} a : forall b,
  length a = length b ->
  (forall p va vb, a !! p = Some va -> b !! p = Some vb ->
     lt_op va vb = false /\ lt_op vb va = false) ->
  lex_less a b = false.
Proof.
  induction a as [|x a IH]; intros [|y b] Hlen Hsame;
    simpl in *; try done.
  destruct (Hsame 0%nat x y) as [-> ->]; [done..|].
  apply IH; [lia|].
  intros p va vb Hva Hvb. by apply (Hsame (S p)).
Qed.
End Comparing.

Section Relational.
Context {T : Type}.
Variables D1 D2 D3 : N.
Implicit Types (h : heap T) (x y z : loc) (a b c : list T).

Lemma op_eq_cells `{EqualityComparable T} h x y a b :
  representable D1 D2 D3 ->
  array_at D1 D2 D3 h x a ->
  array_at D1 D2 D3 h y b ->
  op_eq D1 D2 D3 x y h = Ret (all_equal a b) h.
Proof.
  intros Hrep [Hx Hlena] [Hy Hlenb].
  unfold op_eq, equal, bind, end_, begin, elems.
  rewrite distance_begin_end, size_product, <- Hlena by done.
  change 0 with (N.of_nat (length (@nil T))).
  apply (equal_loop_range a b h x y [] [] [] []);
    [lia|by rewrite app_nil_r..].
Qed.

Lemma op_lt_cells `{LessThanComparable T} h x y a b :
  representable D1 D2 D3 ->
  array_at D1 D2 D3 h x a ->
  array_at D1 D2 D3 h y b ->
  op_lt D1 D2 D3 x y h = Ret (lex_less a b) h.
Proof.
  intros Hrep [Hx Hlena] [Hy Hlenb].
  unfold op_lt, lexicographical_compare, bind, end_, begin, elems.
  rewrite !distance_begin_end, size_product by done.
  rewrite <- Hlena at 1. rewrite <- Hlenb.
  change 0 with (N.of_nat (length (@nil T))).
  apply (lexicographical_compare_loop_range a b h x y [] [] [] []);
    by rewrite app_nil_r.
Qed.

(** C4.  x < y is the lexicographic comparison of the two flattened
    sequences: at the first position where one element is less than the
    other, the result is whether the element of x is the lesser one;
    sequences with no such position (equal ones, for an irreflexive <)
    compare not-less.  x > y is y < x, x <= y is !(y < x) and x >= y is
    !(x < y). *)
Theorem ordering_lexicographic `{LessThanComparable T} h x y a b :
  representable D1 D2 D3 ->
  array_at D1 D2 D3 h x a ->
  array_at D1 D2 D3 h y b ->
  op_lt D1 D2 D3 x y h = Ret (lex_less a b) h /\
  (forall p va vb,
     a !! p = Some va -> b !! p = Some vb ->
     (forall q ua ub, (q < p)%nat -> a !! q = Some ua -> b !! q = Some ub ->
        lt_op ua ub = false /\ lt_op ub ua = false) ->
     op_lt D1 D2 D3 x y h
     = Ret (if lt_op va vb then true
            else if lt_op vb va then false
            else lex_less (drop (S p) a) (drop (S p) b)) h) /\
  ((forall p va vb, a !! p = Some va -> b !! p = Some vb ->
      lt_op va vb = false /\ lt_op vb va = false) ->
   op_lt D1 D2 D3 x y h = Ret false h) /\
  ((forall v : T, lt_op v v = false) -> a = b ->
   op_lt D1 D2 D3 x y h = Ret false h) /\
  op_gt D1 D2 D3 x y h = op_lt D1 D2 D3 y x h /\
  op_le D1 D2 D3 x y h = (b' <- op_lt D1 D2 D3 y x ;; ret (negb b')) h /\
  op_ge D1 D2 D3 x y h = (b' <- op_lt D1 D2 D3 x y ;; ret (negb b')) h /\
  op_gt D1 D2 D3 x y h = Ret (lex_less b a) h /\
  op_le D1 D2 D3 x y h = Ret (negb (lex_less b a)) h /\
  op_ge D1 D2 D3 x y h = Ret (negb (lex_less a b)) h.
Proof.
  intros Hrep Ha Hb.
  pose proof (op_lt_cells h x y a b Hrep Ha Hb) as Hlt.
  pose proof (op_lt_cells h y x b a Hrep Hb Ha) as Hgt.
  assert (Hlen : length a = length b)
    by (destruct Ha as [_ ->], Hb as [_ ->]; done).
  split; [done|].
  split.
  { intros p va vb Hva Hvb Hsame. rewrite Hlt. f_equal.
    by apply lex_less_first_difference. }
  split.
  { intros Hsame. rewrite Hlt. f_equal.
    by apply lex_less_no_difference. }
  split.
  { intros Hirr Hab. rewrite Hlt. f_equal.
    apply lex_less_no_difference; [done|].
    intros p va vb Hva Hvb. assert (va = vb) as -> by congruence.
    by rewrite Hirr. }
  do 3 (split; [done|]).
  split; [done|].
  split; unfold op_le, op_ge, bind.
  - by rewrite Hgt.
  - by rewrite Hlt.
Qed.

(** C5.  x == y holds exactly when the elements at every flat position
    compare equal, x != y is its negation, and == on containers is
    reflexive, symmetric and transitive whenever == on elements is. *)
Theorem equality_elementwise `{EqualityComparable T} h x y a b :
  representable D1 D2 D3 ->
  array_at D1 D2 D3 h x a ->
  array_at D1 D2 D3 h y b ->
  op_eq D1 D2 D3 x y h = Ret (all_equal a b) h /\
  (op_eq D1 D2 D3 x y h = Ret true h <->
   forall p va vb, a !! p = Some va -> b !! p = Some vb ->
     eq_op va vb = true) /\
  op_ne D1 D2 D3 x y h = (e <- op_eq D1 D2 D3 x y ;; ret (negb e)) h /\
  op_ne D1 D2 D3 x y h = Ret (negb (all_equal a b)) h /\
  ((forall v : T, eq_op v v = true) -> op_eq D1 D2 D3 x x h = Ret true h) /\
  ((forall u v : T, eq_op u v = true -> eq_op v u = true) ->
   op_eq D1 D2 D3 y x h = op_eq D1 D2 D3 x y h) /\
  ((forall u v w : T,
      eq_op u v = true -> eq_op v w = true -> eq_op u w = true) ->
   forall z c, array_at D1 D2 D3 h z c ->
     op_eq D1 D2 D3 x y h = Ret true h ->
     op_eq D1 D2 D3 y z h = Ret true h ->
     op_eq D1 D2 D3 x z h = Ret true h).
Proof.
  intros Hrep Ha Hb.
  pose proof (op_eq_cells h x y a b Hrep Ha Hb) as Heq.
  assert (Hlen : length a = length b)
    by (destruct Ha as [_ ->], Hb as [_ ->]; done).
  split; [done|].
  split.
  { rewrite Heq, <- (all_equal_lookup a b Hlen). split; [|by intros ->].
    intros Hret. by injection Hret. }
  split; [done|].
  split; [unfold op_ne, bind; by rewrite Heq|].
  split.
  { intros Hrefl. rewrite (op_eq_cells h x x a a Hrep Ha Ha).
    by rewrite all_equal_refl. }
  split.
  { intros Hsym. rewrite Heq, (op_eq_cells h y x b a Hrep Hb Ha).
    by rewrite (all_equal_sym b a). }
  intros Htrans z c Hc.
  rewrite Heq, (op_eq_cells h y z b c Hrep Hb Hc).
  rewrite (op_eq_cells h x z a c Hrep Ha Hc).
  intros Hab Hbc. f_equal.
  apply (all_equal_trans a b c Htrans Hlen).
  - by injection Hab.
  - by injection Hbc.
Qed.
End Relational.

(** ** The statements on concrete containers *)

Section Witnesses.
Import Sample.

Lemma sample_a : array_at 2 2 2 objects a cells_a.
Proof. split; reflexivity. Defined.

Lemma sample_b : array_at 2 2 2 objects b cells_b.
Proof. split; reflexivity. Defined.

Lemma sample_c : array_at 1 1 1 objects c [0].
Proof. split; reflexivity. Defined.

Lemma sample_representable : representable 2 2 2.
Proof. reflexivity. Defined.

Lemma at_range_checked_witness :
  array_at 2 2 2 objects a cells_a /\
  value_of (at_ 2 2 2 a 1 0 1) objects = Ret 6 objects /\
  at_ 2 2 2 a 0 2 0 objects
  = Throw (out_of_range "array_3d: index out of range") objects.
Proof.
  split; [exact sample_a|].
  destruct (at_range_checked 2 2 2 objects a cells_a 1 0 1 sample_a)
    as (_ & _ & Hin).
  destruct (at_range_checked 2 2 2 objects a cells_a 0 2 0 sample_a)
    as (_ & Hout & _).
  split.
  - destruct Hin as (_ & v & Hv & Hval & _); [reflexivity..|].
    vm_compute in Hv. injection Hv as <-. exact Hval.
  - apply Hout. right; left. discriminate.
Defined.

Lemma at_preserves_elements_witness :
  final_state (at_ 2 2 2 a 5 0 0 objects) = Some objects /\
  final_state (value_of (at_ 2 2 2 a 1 1 1) objects) = Some objects.
Proof.
  destruct (at_preserves_elements 2 2 2 objects a 5 0 0) as (Hcall & _ & _).
  destruct (at_preserves_elements 2 2 2 objects a 1 1 1) as (_ & _ & Hread).
  split; [exact Hcall|exact (Hread cells_a sample_a)].
Defined.

Lemma iteration_row_major_witness :
  representable 2 2 2 /\
  array_at 2 2 2 objects a cells_a /\
  sequential_writes zeroed = Ret tt objects /\
  traverse (begin a) (end_ 2 2 2 a) objects
  = Ret [1; 2; 3; 4; 5; 6; 7; 8] objects /\
  load (front 2 2 a) objects = Ret 1 objects /\
  load (back 2 2 2 a) objects = Ret 8 objects.
Proof.
  split; [exact sample_representable|].
  split; [exact sample_a|].
  split; [reflexivity|].
  destruct (iteration_row_major 2 2 2 objects a cells_a
              sample_representable sample_a)
    as (Hwalk & _ & _ & _ & _ & Hfront & Hback & _).
  split; [exact Hwalk|].
  split; [exact Hfront|exact Hback].
Defined.

Lemma converting_assignment_witness :
  representable 2 2 2 /\
  array_at 2 2 2 objects a cells_a /\
  array_at 2 2 2 wide_objects d (replicate 8 0%Z) /\
  op_assign 2 2 2 widen objects d a wide_objects
  = Ret d (<[d := [1; 2; 3; 4; 5; 6; 7; 8]%Z]> wide_objects).
Proof.
  assert (Hwide : array_at 2 2 2 wide_objects d (replicate 8 0%Z))
    by (split; reflexivity).
  split; [exact sample_representable|].
  split; [exact sample_a|].
  split; [exact Hwide|].
  pose proof (converting_assignment 2 2 2 widen objects wide_objects d a
                cells_a (replicate 8 0%Z)
                sample_representable sample_a Hwide) as Hassign.
  cbv zeta in Hassign. destruct Hassign as (Hcopy & _).
  exact Hcopy.
Defined.

Lemma ordering_lexicographic_witness :
  representable 2 2 2 /\
  array_at 2 2 2 objects a cells_a /\
  array_at 2 2 2 objects b cells_b /\
  op_lt 2 2 2 a b objects = Ret true objects /\
  op_gt 2 2 2 a b objects = Ret false objects /\
  op_le 2 2 2 a b objects = Ret true objects /\
  op_ge 2 2 2 a b objects = Ret false objects.
Proof.
  split; [exact sample_representable|].
  split; [exact sample_a|].
  split; [exact sample_b|].
  destruct (ordering_lexicographic 2 2 2 objects a b cells_a cells_b
              sample_representable sample_a sample_b)
    as (_ & Hlast & _ & _ & _ & _ & _ & Hgt & Hle & Hge).
  split; [|split; [exact Hgt|split; [exact Hle|exact Hge]]].
  apply (Hlast 7%nat 8 9); [reflexivity..|].
  intros q ua ub Hq Hua Hub.
  do 7 (destruct q as [|q];
        [vm_compute in Hua, Hub; injection Hua as <-; injection Hub as <-;
         split; reflexivity|]).
  lia.
Defined.

Lemma equality_elementwise_witness :
  representable 2 2 2 /\
  array_at 2 2 2 objects a cells_a /\
  array_at 2 2 2 objects b cells_b /\
  op_eq 2 2 2 a b objects = Ret false objects /\
  op_ne 2 2 2 a b objects = Ret true objects /\
  op_eq 2 2 2 a a objects = Ret true objects.
Proof.
  split; [exact sample_representable|].
  split; [exact sample_a|].
  split; [exact sample_b|].
  destruct (equality_elementwise 2 2 2 objects a b cells_a cells_b
              sample_representable sample_a sample_b)
    as (Heq & _ & _ & Hne & Hrefl & _).
  split; [exact Heq|].
  split; [exact Hne|].
  apply Hrefl. intros v. apply N.eqb_refl.
Defined.

Lemma fill_assigns_every_element_witness :
  representable 1 1 1 /\
  array_at 1 1 1 objects c [0] /\
  fill 1 1 1 c 7 objects = Ret tt (<[c := [7]]> objects) /\
  assign 1 1 1 c 7 objects = Ret tt (<[c := [7]]> objects) /\
  load (front 1 1 c) (<[c := [7]]> objects) = Ret 7 (<[c := [7]]> objects) /\
  load (back 1 1 1 c) (<[c := [7]]> objects) = Ret 7 (<[c := [7]]> objects).
Proof.
  assert (Hrep : representable 1 1 1) by reflexivity.
  split; [exact Hrep|].
  split; [exact sample_c|].
  pose proof (fill_assigns_every_element 1 1 1 objects c [0] 7
                Hrep sample_c) as Hfill.
  cbv zeta in Hfill.
  destruct Hfill as (Hpost & Hassign & _ & _ & _ & Hends).
  destruct Hends as [Hfront Hback]; [reflexivity..|].
  split; [exact Hpost|].
  split; [rewrite Hassign; exact Hpost|].
  split; [exact Hfront|exact Hback].
Defined.

Lemma swap_exchanges_contents_witness :
  representable 2 2 2 /\
  a <> b /\
  array_at 2 2 2 objects a cells_a /\
  array_at 2 2 2 objects b cells_b /\
  swap 2 2 2 a b objects
  = Ret tt (<[b := cells_a]> (<[a := cells_b]> objects)) /\
  (swap 2 2 2 a b ;;; swap 2 2 2 a b) objects = Ret tt objects.
Proof.
  assert (Hne : a <> b) by discriminate.
  split; [exact sample_representable|].
  split; [exact Hne|].
  split; [exact sample_a|].
  split; [exact sample_b|].
  pose proof (swap_exchanges_contents 2 2 2 objects a b cells_a cells_b
                sample_representable Hne sample_a sample_b) as Hswap.
  cbv zeta in Hswap.
  destruct Hswap as (Hpost & _ & _ & _ & _ & Htwice).
  split; [exact Hpost|exact Htwice].
Defined.

Lemma swap_self_noop_witness :
  representable 2 2 2 /\
  array_at 2 2 2 objects a cells_a /\
  swap 2 2 2 a a objects = Ret tt objects.
Proof.
  split; [exact sample_representable|].
  split; [exact sample_a|].
  exact (swap_self_noop 2 2 2 objects a cells_a sample_representable sample_a).
Defined.

Lemma capacity_queries_witness :
  representable 2 3 4 /\
  size 2 3 4 = 24 /\ max_size 2 3 4 = 24 /\
  size_1d 2 = 2 /\ size_2d 3 = 3 /\ size_3d 4 = 4 /\ empty = false /\
  representable 2 0 4 /\ size 2 0 4 = 0.
Proof.
  assert (Hrep : representable 2 3 4) by reflexivity.
  assert (Hrep0 : representable 2 0 4) by reflexivity.
  split; [exact Hrep|].
  destruct (capacity_queries 2 3 4 Hrep)
    as (Hsize & Hmax & H1 & H2 & H3 & Hempty & _).
  destruct (capacity_queries 2 0 4 Hrep0) as (_ & _ & _ & _ & _ & _ & Hzero).
  do 6 (split; [assumption|]).
  split; [exact Hrep0|].
  apply Hzero. right; left; reflexivity.
Defined.
End Witnesses.


(** * Further properties of the header *)

(** ** Reverse iteration *)

Section ReverseWalk.
Context {T : Type}.
Implicit Types (h : heap T) (b : loc) (pre l post : list T).

Lemma ptr_pred_succ {S} b (n : nat) (s : S) :
  ptr_pred (Ptr b (N.of_nat (Datatypes.S n))) s = Ret (Ptr b (N.of_nat n)) s.
Proof.
  unfold ptr_pred; cbn [off blk].
  destruct (N.eqb_spec (N.of_nat (Datatypes.S n)) 0) as [Hz|_]; [lia|].
  unfold ret. do 2 f_equal. lia.
Qed.

Lemma reverse_traverse_loop_range h b l : forall pre post,
  h !! b = Some (pre ++ l ++ post) ->
  reverse_traverse_loop (length l)
    (ReverseIterator (Ptr b (N.of_nat (length pre + length l)))) h
  = Ret (rev l) h.
Proof.
  induction l as [|x l IH] using rev_ind; intros pre post Hb; [done|].
  rewrite length_app, rev_app_distr, Nat.add_1_r.
  replace (length pre + Datatypes.S (length l))%nat
    with (Datatypes.S (length (pre ++ l)))
    by (rewrite length_app; lia).
  cbn [reverse_traverse_loop rev app length].
  assert (Hcells : h !! b = Some ((pre ++ l) ++ x :: post))
    by (rewrite Hb; f_equal; by rewrite <- !app_assoc).
  unfold bind at 1. unfold reverse_deref, bind at 1. cbn [current].
  rewrite ptr_pred_succ, (load_middle _ _ _ _ _ Hcells).
  unfold bind at 1. unfold reverse_next, bind at 1. cbn [current].
  rewrite ptr_pred_succ. unfold ret at 1.
  unfold bind at 1. rewrite length_app.
  rewrite (IH pre (x :: post)); [done|].
  rewrite Hb. f_equal. by rewrite <- !app_assoc.
Qed.
End ReverseWalk.

Section ReverseIteration.
Context {T : Type}.
Variables D1 D2 D3 : N.
Implicit Types (h : heap T) (this : loc) (cells : list T).

(** X1.  Walking from rbegin() to rend() (or crbegin() to crend()) yields
    the elements of the container back to front, the reverse of the
    begin()-to-end() walk; cbegin()/cend() give the forward walk; for a
    container with an element, *rbegin() is back(). *)
Theorem reverse_iteration_back_to_front h this cells :
  representable D1 D2 D3 ->
  array_at D1 D2 D3 h this cells ->
  reverse_traverse (rbegin D1 D2 D3 this) (rend this) h = Ret (rev cells) h /\
  reverse_traverse (crbegin D1 D2 D3 this) (crend this) h = Ret (rev cells) h /\
  traverse (cbegin this) (cend D1 D2 D3 this) h = Ret cells h /\
  (0 < D1 -> 0 < D2 -> 0 < D3 ->
     reverse_deref (rbegin D1 D2 D3 this) h = load (back D1 D2 D3 this) h).
Proof.
  intros Hrep Harr. pose proof Harr as [Hb Hlen].
  assert (Hwalk : reverse_traverse (rbegin D1 D2 D3 this) (rend this) h
                  = Ret (rev cells) h).
  { unfold reverse_traverse, rbegin, rend, bind; simpl current.
    unfold end_, begin, elems.
    rewrite distance_begin_end, size_product, <- Hlen by done.
    unfold ptr_add; cbn [blk off].
    replace (0 + D1 * D2 * D3)
      with (N.of_nat (length (@nil T) + length cells)) by (simpl; lia).
    apply (reverse_traverse_loop_range h this cells [] []).
    by rewrite app_nil_r. }
  split; [done|]. split; [done|].
  split; [by apply traverse_cells|].
  intros H1 H2 H3.
  destruct (back_last_position D1 D2 D3 Hrep H1 H2 H3 this) as [-> Hflat].
  rewrite elems_sub_flat, Hflat.
  unfold reverse_deref, bind, rbegin; cbn [current].
  unfold end_, begin, elems, ptr_add; cbn [blk off].
  rewrite size_product by done.
  assert (Hpos : 0 < D1 * D2 * D3) by lia.
  replace (0 + D1 * D2 * D3)
    with (N.of_nat (Datatypes.S (N.to_nat (D1 * D2 * D3 - 1)))) by lia.
  rewrite ptr_pred_succ. by rewrite N2Nat.id.
Qed.
End ReverseIteration.

(** ** Coordinates and cells *)

Section Coordinates.
Variables D1 D2 D3 : N.

Lemma coordinates_of_flat_index i j k :
  j < D2 -> k < D3 ->
  coordinates_of D2 D3 (flat_index D2 D3 i j k) = (i, j, k).
Proof.
  intros Hj Hk. unfold coordinates_of, flat_index.
  assert (HD3 : D3 <> 0) by lia.
  assert (HD2 : D2 <> 0) by lia.
  replace (i * D2 * D3 + j * D3 + k) with (k + (i * D2 + j) * D3) by lia.
  assert (Hrow : (k + (i * D2 + j) * D3) / D3 = i * D2 + j).
  { rewrite N.div_add by done. rewrite N.div_small by done. lia. }
  assert (Hk' : (k + (i * D2 + j) * D3) mod D3 = k).
  { rewrite N.Div0.mod_add. by apply N.mod_small. }
  rewrite (N.mul_comm D2 D3), <- N.Div0.div_div, Hrow, Hk'.
  replace (i * D2 + j) with (j + i * D2) by lia.
  rewrite N.div_add, N.Div0.mod_add by done.
  rewrite N.div_small, N.mod_small by done.
  done.
Qed.

Lemma flat_index_coordinates_of p :
  p < D1 * D2 * D3 ->
  p / (D2 * D3) < D1 /\ (p / D3) mod D2 < D2 /\ p mod D3 < D3 /\
  flat_index D2 D3 (p / (D2 * D3)) ((p / D3) mod D2) (p mod D3) = p.
Proof.
  intros Hp.
  assert (HD3 : D3 <> 0) by (intros ->; lia).
  assert (HD2 : D2 <> 0) by (intros ->; lia).
  split; [apply N.Div0.div_lt_upper_bound; lia|].
  split; [by apply N.mod_lt|].
  split; [by apply N.mod_lt|].
  unfold flat_index.
  rewrite (N.mul_comm D2 D3), <- N.Div0.div_div.
  pose proof (N.Div0.div_mod p D3) as Ep.
  pose proof (N.Div0.div_mod (p / D3) D2) as Eq.
  lia.
Qed.

(** X2.  Coordinates and cells correspond one to one: a valid triple
    (i,j,k) addresses a cell of the container, two valid triples address
    the same cell only if they are the same triple, and the cell p steps
    after begin() (or data()), for p < D1*D2*D3, is the element at
    (p / (D2*D3), (p / D3) mod D2, p mod D3). *)
Theorem coordinates_address_cells_one_to_one (this : loc) :
  (forall i j k, i < D1 -> j < D2 -> k < D3 ->
     op_call D2 D3 this i j k = data this +ₚ flat_index D2 D3 i j k /\
     flat_index D2 D3 i j k < D1 * D2 * D3 /\
     coordinates_of D2 D3 (flat_index D2 D3 i j k) = (i, j, k)) /\
  (forall i j k i' j' k',
     i < D1 -> j < D2 -> k < D3 -> i' < D1 -> j' < D2 -> k' < D3 ->
     op_call D2 D3 this i j k = op_call D2 D3 this i' j' k' ->
     (i, j, k) = (i', j', k')) /\
  (forall p, p < D1 * D2 * D3 ->
     exists i j k,
       coordinates_of D2 D3 p = (i, j, k) /\
       i < D1 /\ j < D2 /\ k < D3 /\
       op_call D2 D3 this i j k = begin this +ₚ p).
Proof.
  split; [|split].
  - intros i j k Hi Hj Hk.
    split; [unfold op_call; by rewrite elems_sub_flat|].
    split; [by apply flat_index_bound|by apply coordinates_of_flat_index].
  - intros i j k i' j' k' Hi Hj Hk Hi' Hj' Hk' Hsame.
    unfold op_call in Hsame. rewrite !elems_sub_flat in Hsame.
    injection Hsame as Hflat.
    rewrite <- (coordinates_of_flat_index i j k) by done.
    rewrite <- (coordinates_of_flat_index i' j' k') by done.
    by rewrite Hflat.
  - intros p Hp.
    destruct (flat_index_coordinates_of p Hp) as (Hi & Hj & Hk & Hflat).
    exists (p / (D2 * D3)), ((p / D3) mod D2), (p mod D3).
    split; [done|]. do 3 (split; [done|]).
    unfold op_call. by rewrite elems_sub_flat, Hflat.
Qed.
End Coordinates.

(** ** Writing through the accessors *)

Section Writes.
Context {T : Type}.
Variables D1 D2 D3 : N.
Implicit Types (h : heap T) (this : loc) (cells : list T).

Lemma store_elems_sub h this cells i j k v :
  array_at D1 D2 D3 h this cells ->
  i < D1 -> j < D2 -> k < D3 ->
  store (elems_sub D2 D3 this i j k) v h
  = Ret tt (<[this := <[N.to_nat (flat_index D2 D3 i j k) := v]> cells]> h).
Proof.
  intros [Hb Hlen] Hi Hj Hk. rewrite elems_sub_flat.
  unfold store; cbn [blk off]. rewrite Hb.
  pose proof (flat_index_bound D1 D2 D3 i j k Hi Hj Hk).
  by rewrite decide_True by lia.
Qed.

(** X3.  Assigning through operator() at valid coordinates changes the
    element at those coordinates and nothing else: the element reads back
    as the value written, every other valid coordinate triple reads what
    it read before, and other objects are untouched. *)
Theorem unchecked_write_changes_one_element h this cells i j k v :
  array_at D1 D2 D3 h this cells ->
  i < D1 -> j < D2 -> k < D3 ->
  let cells' := <[N.to_nat (flat_index D2 D3 i j k) := v]> cells in
  let h' := <[this := cells']> h in
  write_unchecked D2 D3 this i j k v h = Ret tt h' /\
  array_at D1 D2 D3 h' this cells' /\
  load (op_call D2 D3 this i j k) h' = Ret v h' /\
  (forall i' j' k', i' < D1 -> j' < D2 -> k' < D3 ->
     (i', j', k') <> (i, j, k) ->
     load (op_call D2 D3 this i' j' k') h'
     = lift_option (cell h (op_call D2 D3 this i' j' k')) h') /\
  (forall z, z <> this -> h' !! z = h !! z).
Proof.
  intros Harr Hi Hj Hk cells' h'. pose proof Harr as [Hb Hlen].
  pose proof (flat_index_bound D1 D2 D3 i j k Hi Hj Hk) as Hflat.
  assert (Harr' : array_at D1 D2 D3 h' this cells').
  { split; [apply lookup_insert_eq|]. unfold cells'. by rewrite length_insert. }
  split; [by apply store_elems_sub|].
  split; [done|].
  split; [|split].
  - unfold op_call.
    rewrite (load_elems_sub D1 D2 D3 h' this cells') by done.
    unfold cells'. rewrite list_lookup_insert_eq by lia. done.
  - intros i' j' k' Hi' Hj' Hk' Hother. unfold op_call.
    rewrite (load_elems_sub D1 D2 D3 h' this cells') by done.
    rewrite (cell_elems_sub D1 D2 D3 h this cells) by done.
    unfold cells'. rewrite list_lookup_insert_ne; [done|].
    intros Hsame. apply Hother.
    rewrite <- (coordinates_of_flat_index D2 D3 i j k) by done.
    rewrite <- (coordinates_of_flat_index D2 D3 i' j' k') by done.
    f_equal. lia.
  - intros z Hz. unfold h'. by rewrite lookup_insert_ne.
Qed.

(** X4.  Assigning through at(): with a coordinate out of range the call
    throws before anything is stored and the heap is unchanged; in range
    it is the unchecked assignment.  Whatever the coordinates, the call
    ends with the container still in place and every other object as it
    was, so a checked write cannot run off the array. *)
Theorem checked_write_stays_inside h this cells i j k v :
  array_at D1 D2 D3 h this cells ->
  (D1 <= i \/ D2 <= j \/ D3 <= k ->
     write_checked D1 D2 D3 this i j k v h
     = Throw (out_of_range "array_3d: index out of range") h) /\
  (i < D1 -> j < D2 -> k < D3 ->
     write_checked D1 D2 D3 this i j k v h
     = write_unchecked D2 D3 this i j k v h) /\
  (exists h' cells',
     final_state (write_checked D1 D2 D3 this i j k v h) = Some h' /\
     array_at D1 D2 D3 h' this cells' /\
     (forall z, z <> this -> h' !! z = h !! z)).
Proof.
  intros Harr.
  assert (Hout : D1 <= i \/ D2 <= j \/ D3 <= k ->
            write_checked D1 D2 D3 this i j k v h
            = Throw (out_of_range "array_3d: index out of range") h).
  { intros Hrange. unfold write_checked, bind.
    by rewrite at_out_of_range. }
  assert (Hin : i < D1 -> j < D2 -> k < D3 ->
            write_checked D1 D2 D3 this i j k v h
            = write_unchecked D2 D3 this i j k v h).
  { intros Hi Hj Hk. unfold write_checked, bind.
    by rewrite at_in_range. }
  split; [done|]. split; [done|].
  destruct (N.lt_ge_cases i D1) as [Hi|];
    [|exists h, cells; rewrite Hout by (by left); done].
  destruct (N.lt_ge_cases j D2) as [Hj|];
    [|exists h, cells; rewrite Hout by (by right; left); done].
  destruct (N.lt_ge_cases k D3) as [Hk|];
    [|exists h, cells; rewrite Hout by (by right; right); done].
  rewrite Hin by done. unfold write_unchecked, op_call.
  rewrite (store_elems_sub h this cells) by done.
  eexists _, _. split; [done|]. split.
  - split; [apply lookup_insert_eq|]. rewrite length_insert. apply Harr.
  - intros z Hz. by rewrite lookup_insert_ne.
Qed.
End Writes.

(** ** How swap, fill and the comparisons compose *)

Section Composition.
Context {T : Type}.
Variables D1 D2 D3 : N.
Implicit Types (h : heap T) (this x y : loc) (cells a b : list T).

(** X5.  For two different containers the receiver and the argument of
    swap can trade places: x.swap(y) and y.swap(x) end in the same heap. *)
Theorem swap_receiver_argument_symmetric h x y a b :
  representable D1 D2 D3 ->
  x <> y ->
  array_at D1 D2 D3 h x a ->
  array_at D1 D2 D3 h y b ->
  swap D1 D2 D3 x y h = swap D1 D2 D3 y x h.
Proof.
  intros Hrep Hne Ha Hb.
  rewrite (swap_cells D1 D2 D3 h x y a b) by done.
  rewrite (swap_cells D1 D2 D3 h y x b a) by done.
  f_equal. by apply insert_insert_ne.
Qed.

Lemma array_at_swapped h x y a b :
  x <> y ->
  array_at D1 D2 D3 h x a ->
  array_at D1 D2 D3 h y b ->
  array_at D1 D2 D3 (<[y := a]> (<[x := b]> h)) x b /\
  array_at D1 D2 D3 (<[y := a]> (<[x := b]> h)) y a.
Proof.
  intros Hne [_ Hlena] [_ Hlenb]. split; (split; [|done]).
  - rewrite lookup_insert_ne by done. apply lookup_insert_eq.
  - apply lookup_insert_eq.
Qed.

(** X6.  Comparing after a swap is comparing the other way round before
    it: x < y after x.swap(y) is what y < x was, and likewise for ==. *)
Theorem swap_reverses_comparisons
    `{LessThanComparable T} `{EqualityComparable T} h x y a b :
  representable D1 D2 D3 ->
  x <> y ->
  array_at D1 D2 D3 h x a ->
  array_at D1 D2 D3 h y b ->
  (swap D1 D2 D3 x y ;;; op_lt D1 D2 D3 x y) h
  = (r <- op_lt D1 D2 D3 y x ;; swap D1 D2 D3 x y ;;; ret r) h /\
  (swap D1 D2 D3 x y ;;; op_eq D1 D2 D3 x y) h
  = (r <- op_eq D1 D2 D3 y x ;; swap D1 D2 D3 x y ;;; ret r) h.
Proof.
  intros Hrep Hne Ha Hb.
  destruct (array_at_swapped h x y a b Hne Ha Hb) as [Ha' Hb'].
  unfold bind.
  rewrite (op_lt_cells D1 D2 D3 h y x b a) by done.
  rewrite (op_eq_cells D1 D2 D3 h y x b a) by done.
  rewrite (swap_cells D1 D2 D3 h x y a b) by done.
  rewrite (op_lt_cells D1 D2 D3 _ x y b a) by done.
  rewrite (op_eq_cells D1 D2 D3 _ x y b a) by done.
  done.
Qed.

End Composition.

(** ** The order and the equality the comparison operators induce *)

Section LexicographicOrder.
Context {T : Type} `{LessThanComparable T}.
Implicit Types (a b c : list T).

Lemma lex_less_asym a : forall b,
  (forall u v : T, lt_op u v = true -> lt_op v u = false) ->
  lex_less a b = true -> lex_less b a = false.
Proof.
  intros b Hasym. revert b.
  induction a as [|x a IH]; intros [|y b]; simpl; try done.
  destruct (lt_op x y) eqn:Hxy.
  - intros _. by rewrite (Hasym x y Hxy).
  - destruct (lt_op y x) eqn:Hyx; [done|]. apply IH.
Qed.

Lemma lex_less_connected a : forall b,
  (forall u v : T, lt_op u v = false -> lt_op v u = false -> u = v) ->
  length a = length b ->
  lex_less a b = false -> lex_less b a = false -> a = b.
Proof.
  intros b Hconn. revert b.
  induction a as [|x a IH]; intros [|y b] Hlen; simpl in *; try done.
  destruct (lt_op x y) eqn:Hxy; [done|].
  destruct (lt_op y x) eqn:Hyx; [done|].
  intros Hab Hba. rewrite (Hconn x y Hxy Hyx). f_equal.
  apply IH; [lia|done..].
Qed.

Section StrictWeak.
Hypothesis Htrans : forall u v w : T,
  lt_op u v = true -> lt_op v w = true -> lt_op u w = true.
Hypothesis Hinc : forall u v w : T,
  lt_op u v = false -> lt_op v u = false ->
  lt_op v w = false -> lt_op w v = false ->
  lt_op u w = false /\ lt_op w u = false.

Lemma lt_then_equivalent u v w :
  lt_op u v = true -> lt_op v w = false -> lt_op w v = false ->
  lt_op u w = true.
Proof.
  intros Huv Hvw Hwv.
  destruct (lt_op u w) eqn:Huw; [done|].
  destruct (lt_op w u) eqn:Hwu.
  - by rewrite (Htrans w u v Hwu Huv) in Hwv.
  - destruct (Hinc v w u Hvw Hwv Hwu Huw) as [_ Huv']. congruence.
Qed.

Lemma equivalent_then_lt u v w :
  lt_op u v = false -> lt_op v u = false -> lt_op v w = true ->
  lt_op u w = true.
Proof.
  intros Huv Hvu Hvw.
  destruct (lt_op u w) eqn:Huw; [done|].
  destruct (lt_op w u) eqn:Hwu.
  - by rewrite (Htrans v w u Hvw Hwu) in Hvu.
  - destruct (Hinc w u v Hwu Huw Huv Hvu) as [_ Hvw']. congruence.
Qed.

Lemma lex_less_trans a : forall b c,
  lex_less a b = true -> lex_less b c = true -> lex_less a c = true.
Proof.
  induction a as [|x a IH]; intros [|y b] [|z c]; simpl; try done.
  destruct (lt_op x y) eqn:Hxy.
  - intros _. destruct (lt_op y z) eqn:Hyz.
    + intros _. by rewrite (Htrans x y z).
    + destruct (lt_op z y) eqn:Hzy; [done|]. intros _.
      by rewrite (lt_then_equivalent x y z).
  - destruct (lt_op y x) eqn:Hyx; [done|]. intros Hab.
    destruct (lt_op y z) eqn:Hyz.
    + intros _. by rewrite (equivalent_then_lt x y z).
    + destruct (lt_op z y) eqn:Hzy; [done|]. intros Hbc.
      destruct (Hinc x y z Hxy Hyx Hyz Hzy) as [-> ->].
      by apply (IH b c).
Qed.
End StrictWeak.
End LexicographicOrder.

Section AllEqual.
Context {T : Type} `{EqualityComparable T}.

Lemma all_equal_decides (a : list T) : forall b,
  (forall u v : T, eq_op u v = true <-> u = v) ->
  length a = length b ->
  all_equal a b = true <-> a = b.
Proof.
  intros b Hdec. revert b.
  induction a as [|x a IH]; intros [|y b] Hlen; simpl in *; try done.
  rewrite andb_true_iff, Hdec, IH by lia. split.
  - by intros [-> ->].
  - intros Heq. by simplify_eq.
Qed.
End AllEqual.

Section OrderOnContainers.
Context {T : Type}.
Variables D1 D2 D3 : N.
Implicit Types (h : heap T) (x y z : loc) (a b c : list T).

(** X8.  When < on the elements is a strict weak ordering, < on containers
    is a strict order: irreflexive, asymmetric and transitive; and <= is
    total. *)
Theorem container_order_is_strict `{LessThanComparable T} h x y z a b c :
  (forall u : T, lt_op u u = false) ->
  (forall u v w : T, lt_op u v = true -> lt_op v w = true -> lt_op u w = true) ->
  (forall u v w : T,
     lt_op u v = false -> lt_op v u = false ->
     lt_op v w = false -> lt_op w v = false ->
     lt_op u w = false /\ lt_op w u = false) ->
  representable D1 D2 D3 ->
  array_at D1 D2 D3 h x a ->
  array_at D1 D2 D3 h y b ->
  array_at D1 D2 D3 h z c ->
  op_lt D1 D2 D3 x x h = Ret false h /\
  (op_lt D1 D2 D3 x y h = Ret true h -> op_lt D1 D2 D3 y x h = Ret false h) /\
  (op_lt D1 D2 D3 x y h = Ret true h -> op_lt D1 D2 D3 y z h = Ret true h ->
   op_lt D1 D2 D3 x z h = Ret true h) /\
  (op_le D1 D2 D3 x y h = Ret true h \/ op_le D1 D2 D3 y x h = Ret true h).
Proof.
  intros Hirr Htrans Hinc Hrep Ha Hb Hc.
  assert (Hasym : forall u v : T, lt_op u v = true -> lt_op v u = false).
  { intros u v Huv. destruct (lt_op v u) eqn:Hvu; [|done].
    pose proof (Htrans u v u Huv Hvu) as Huu. by rewrite Hirr in Huu. }
  unfold op_le, bind.
  rewrite (op_lt_cells D1 D2 D3 h x x a a) by done.
  rewrite (op_lt_cells D1 D2 D3 h x y a b) by done.
  rewrite (op_lt_cells D1 D2 D3 h y x b a) by done.
  rewrite (op_lt_cells D1 D2 D3 h y z b c) by done.
  rewrite (op_lt_cells D1 D2 D3 h x z a c) by done.
  split; [|split; [|split]].
  - f_equal. apply lex_less_no_difference; [done|].
    intros p va vb Hva Hvb. assert (va = vb) as -> by congruence.
    by rewrite Hirr.
  - intros Hab. f_equal. apply lex_less_asym; [done|]. by injection Hab.
  - intros Hab Hbc. f_equal.
    apply (lex_less_trans Htrans Hinc a b c).
    + by injection Hab.
    + by injection Hbc.
  - destruct (lex_less b a) eqn:Hba; [|by left].
    right. by rewrite (lex_less_asym b a Hasym Hba).
Qed.

(** X9.  When == on the elements decides equality and < on the elements is
    a strict total order, the operators agree with one another: x == y
    exactly when the two containers hold the same elements, exactly when
    neither x < y nor y < x; and x <= y exactly when x < y or x == y. *)
Theorem equality_and_order_agree
    `{LessThanComparable T} `{EqualityComparable T} h x y a b :
  (forall u v : T, eq_op u v = true <-> u = v) ->
  (forall u : T, lt_op u u = false) ->
  (forall u v : T, lt_op u v = true -> lt_op v u = false) ->
  (forall u v : T, lt_op u v = false -> lt_op v u = false -> u = v) ->
  representable D1 D2 D3 ->
  array_at D1 D2 D3 h x a ->
  array_at D1 D2 D3 h y b ->
  (op_eq D1 D2 D3 x y h = Ret true h <-> a = b) /\
  (op_ne D1 D2 D3 x y h = Ret true h <-> a <> b) /\
  (op_eq D1 D2 D3 x y h = Ret true h <->
   op_lt D1 D2 D3 x y h = Ret false h /\ op_lt D1 D2 D3 y x h = Ret false h) /\
  (op_le D1 D2 D3 x y h = Ret true h <->
   op_lt D1 D2 D3 x y h = Ret true h \/ op_eq D1 D2 D3 x y h = Ret true h).
Proof.
  intros Hdec Hirr Hasym Hconn Hrep Ha Hb.
  assert (Hlen : length a = length b)
    by (destruct Ha as [_ ->], Hb as [_ ->]; done).
  assert (Hsame : lex_less a a = false).
  { apply lex_less_no_difference; [done|].
    intros p va vb Hva Hvb. assert (va = vb) as -> by congruence.
    by rewrite Hirr. }
  assert (Hret : forall u v : bool, Ret u h = Ret v h <-> u = v)
    by (intros u v; split; [by intros [= ->]|by intros ->]).
  unfold op_ne, op_le, bind.
  rewrite (op_eq_cells D1 D2 D3 h x y a b) by done.
  rewrite (op_lt_cells D1 D2 D3 h x y a b) by done.
  rewrite (op_lt_cells D1 D2 D3 h y x b a) by done.
  unfold ret. rewrite !Hret.
  pose proof (all_equal_decides a b Hdec Hlen) as Heq.
  split; [done|]. split; [|split].
  - rewrite negb_true_iff, <- not_true_iff_false. by rewrite Heq.
  - rewrite Heq. split.
    + by intros <-.
    + intros [Hab Hba]. by apply lex_less_connected.
  - rewrite Heq, negb_true_iff. split.
    + intros Hba. destruct (lex_less a b) eqn:Hab; [by left|right].
      by apply lex_less_connected.
    + intros [Hab| <-]; [by apply lex_less_asym|done].
Qed.
End OrderOnContainers.

(** ** A container with a zero dimension *)

Section ZeroDimension.
Context {T : Type}.
Variables D1 D2 D3 : N.
Implicit Types (h : heap T) (x y : loc) (a b : list T).

Lemma zero_dimension_product :
  D1 = 0 \/ D2 = 0 \/ D3 = 0 -> D1 * D2 * D3 = 0.
Proof. intros [Hz | [Hz | Hz]]; rewrite Hz; lia. Qed.

Lemma swap_self_cells h x a :
  representable D1 D2 D3 ->
  array_at D1 D2 D3 h x a ->
  swap D1 D2 D3 x x h = Ret tt h.
Proof.
  intros Hrep [Hx Hlen]. unfold swap, swap_ranges, bind, end_, begin, elems.
  rewrite distance_begin_end, size_product, <- Hlen by done.
  change 0 with (N.of_nat (length (@nil T))).
  by rewrite (swap_ranges_loop_self a h x [] []) by (by rewrite app_nil_r).
Qed.

(** X10.  With a zero dimension the container has no element, and the
    header behaves accordingly: at() throws for every coordinate triple,
    the begin()-to-end() walk yields nothing, fill and swap change
    nothing, any two such containers compare equal and neither is less
    than the other. *)
Theorem zero_dimension_behaviour
    `{LessThanComparable T} `{EqualityComparable T} h x y a b v :
  D1 = 0 \/ D2 = 0 \/ D3 = 0 ->
  array_at D1 D2 D3 h x a ->
  array_at D1 D2 D3 h y b ->
  a = [] /\
  (forall i j k,
     at_ D1 D2 D3 x i j k h
     = Throw (out_of_range "array_3d: index out of range") h) /\
  traverse (begin x) (end_ D1 D2 D3 x) h = Ret [] h /\
  fill D1 D2 D3 x v h = Ret tt h /\
  swap D1 D2 D3 x y h = Ret tt h /\
  op_eq D1 D2 D3 x y h = Ret true h /\
  op_lt D1 D2 D3 x y h = Ret false h.
Proof.
  intros Hzero Ha Hb.
  pose proof (zero_dimension_product Hzero) as Hprod.
  assert (Hrep : representable D1 D2 D3)
    by (unfold representable; rewrite Hprod; reflexivity).
  assert (a = []) as ->
    by (apply nil_length_inv; destruct Ha as [_ ->]; lia).
  assert (b = []) as ->
    by (apply nil_length_inv; destruct Hb as [_ ->]; lia).
  split; [done|]. split; [|split; [|split; [|split; [|split]]]].
  - intros i j k. apply at_out_of_range.
    destruct Hzero as [Hz | [Hz | Hz]]; rewrite Hz; lia.
  - by apply traverse_cells.
  - rewrite (fill_cells D1 D2 D3 h x [] v) by done.
    rewrite Hprod; simpl. f_equal. apply insert_id, Ha.
  - destruct (decide (x = y)) as [<-|Hne].
    + by apply (swap_self_cells h x []).
    + rewrite (swap_cells D1 D2 D3 h x y [] []) by done.
      f_equal. rewrite (insert_id h x) by apply Ha. apply insert_id, Hb.
  - by rewrite (op_eq_cells D1 D2 D3 h x y [] []).
  - by rewrite (op_lt_cells D1 D2 D3 h x y [] []).
Qed.
End ZeroDimension.

(** ** Converting there and back *)

Section ConversionRoundTrip.
Context {T2 T : Type}.
Variables D1 D2 D3 : N.

Lemma op_assign_cells (convert : T2 -> T)
    (src : heap T2) (h : heap T) (this rhs : loc)
    (cs : list T2) (cd : list T) :
  representable D1 D2 D3 ->
  array_at D1 D2 D3 src rhs cs ->
  array_at D1 D2 D3 h this cd ->
  op_assign D1 D2 D3 convert src this rhs h
  = Ret this (<[this := convert <$> cs]> h).
Proof.
  intros Hrep [Hs Hlens] [Hd Hlend].
  unfold op_assign, copy, bind, end_, begin, elems.
  rewrite distance_begin_end, size_product, <- Hlens by done.
  change 0 with (N.of_nat (length (@nil T2))) at 1.
  change 0 with (N.of_nat (length (@nil T))).
  rewrite (copy_loop_range convert src cs cd h rhs this [] [] [] []);
    [|lia|by rewrite app_nil_r..].
  simpl. by rewrite app_nil_r.
Qed.
End ConversionRoundTrip.

Section ConversionRoundTripTheorem.
Context {T2 T : Type}.
Variables D1 D2 D3 : N.
Variables (widening : T2 -> T) (narrowing : T -> T2).

(** X11.  Converting assignment into a container of another element type
    and back restores the original, whenever converting an element there
    and back does: after b = a and then a = b, the heap holding a is what
    it was. *)
Theorem converting_assignment_round_trip
    (src : heap T2) (h : heap T) (a b : loc)
    (ca : list T2) (cb : list T) :
  (forall v, narrowing (widening v) = v) ->
  representable D1 D2 D3 ->
  array_at D1 D2 D3 src a ca ->
  array_at D1 D2 D3 h b cb ->
  let h' := <[b := widening <$> ca]> h in
  op_assign D1 D2 D3 widening src b a h = Ret b h' /\
  op_assign D1 D2 D3 narrowing h' a b src = Ret a src.
Proof.
  intros Hback Hrep Ha Hb h'.
  split; [by apply (op_assign_cells D1 D2 D3 widening src h b a ca cb)|].
  rewrite (op_assign_cells D1 D2 D3 narrowing h' src a b (widening <$> ca) ca);
    [|done| |done].
  - f_equal. apply insert_id. rewrite (proj1 Ha). f_equal.
    rewrite <- list_fmap_compose. symmetry.
    etrans; [|apply list_fmap_id].
    apply list_fmap_ext. intros _ v _. apply Hback.
  - apply array_at_insert. rewrite length_fmap. apply Ha.
Qed.
End ConversionRoundTripTheorem.

(** ** The order, read in coordinates *)

Section OrderInCoordinates.
Context {T : Type}.
Variables D1 D2 D3 : N.
Implicit Types (h : heap T) (x y : loc) (a b : list T).

Lemma flat_index_monotone i j k i' j' k' :
  j < D2 -> k < D3 -> j' < D2 -> k' < D3 ->
  coordinates_before (i', j', k') (i, j, k) ->
  flat_index D2 D3 i' j' k' < flat_index D2 D3 i j k.
Proof.
  intros Hj Hk Hj' Hk' Hbefore. unfold flat_index.
  destruct Hbefore as [Hi | [-> [Hjj | [-> Hkk]]]].
  - pose proof (flat_index_bound (i' + 1) D2 D3 i' j' k') as Hslab.
    unfold flat_index in Hslab.
    assert ((i' + 1) * (D2 * D3) <= i * (D2 * D3))
      by (apply N.mul_le_mono_r; lia).
    lia.
  - assert ((j' + 1) * D3 <= j * D3) by (apply N.mul_le_mono_r; lia).
    lia.
  - lia.
Qed.

Lemma flat_index_before i j k i' j' k' :
  j < D2 -> k < D3 -> j' < D2 -> k' < D3 ->
  flat_index D2 D3 i' j' k' < flat_index D2 D3 i j k ->
  coordinates_before (i', j', k') (i, j, k).
Proof.
  intros Hj Hk Hj' Hk' Hlt.
  destruct (N.lt_trichotomy i' i) as [Hi | [-> | Hi]]; [by left| |].
  - destruct (N.lt_trichotomy j' j) as [Hjj | [-> | Hjj]];
      [by right; split; [|left]| |].
    + destruct (N.lt_trichotomy k' k) as [Hkk | [-> | Hkk]];
        [by right; split; [|right]|lia|].
      assert (Hafter : coordinates_before (i, j, k) (i, j, k'))
        by (right; split; [done|right; done]).
      apply flat_index_monotone in Hafter; [lia|done..].
    + assert (Hafter : coordinates_before (i, j, k) (i, j', k'))
        by (right; split; [done|left; done]).
      apply flat_index_monotone in Hafter; [lia|done..].
  - assert (Hafter : coordinates_before (i, j, k) (i', j', k')) by (by left).
    apply flat_index_monotone in Hafter; [lia|done..].
Qed.

(** X12.  In coordinates, x < y is decided at the first coordinate triple,
    in the order (0,0,0), (0,0,1), ..., (0,1,0), ..., (D1-1,D2-1,D3-1), at
    which one element is less than the other: if the elements at every
    earlier triple are equivalent and the element of x at (i,j,k) is less
    than that of y, then x < y; if it is greater, then not x < y. *)
Theorem order_decided_at_first_coordinates
    `{LessThanComparable T} h x y a b i j k va vb :
  representable D1 D2 D3 ->
  array_at D1 D2 D3 h x a ->
  array_at D1 D2 D3 h y b ->
  i < D1 -> j < D2 -> k < D3 ->
  load (op_call D2 D3 x i j k) h = Ret va h ->
  load (op_call D2 D3 y i j k) h = Ret vb h ->
  (forall i' j' k' ua ub,
     i' < D1 -> j' < D2 -> k' < D3 ->
     coordinates_before (i', j', k') (i, j, k) ->
     load (op_call D2 D3 x i' j' k') h = Ret ua h ->
     load (op_call D2 D3 y i' j' k') h = Ret ub h ->
     lt_op ua ub = false /\ lt_op ub ua = false) ->
  (lt_op va vb = true -> op_lt D1 D2 D3 x y h = Ret true h) /\
  (lt_op va vb = false -> lt_op vb va = true ->
   op_lt D1 D2 D3 x y h = Ret false h).
Proof.
  intros Hrep Ha Hb Hi Hj Hk Hva Hvb Hearlier.
  pose proof (flat_index_bound D1 D2 D3 i j k Hi Hj Hk) as Hflat.
  assert (Hread : forall (z : loc) (c : list T) i' j' k' (u : T),
            array_at D1 D2 D3 h z c ->
            load (op_call D2 D3 z i' j' k') h = Ret u h <->
            c !! N.to_nat (flat_index D2 D3 i' j' k') = Some u).
  { intros z c i' j' k' u Hc. unfold op_call.
    rewrite (load_elems_sub D1 D2 D3 h z c) by done.
    destruct (c !! _); simpl; split; congruence. }
  apply (Hread x a) in Hva; [|done]. apply (Hread y b) in Hvb; [|done].
  rewrite (op_lt_cells D1 D2 D3 h x y a b) by done.
  rewrite (lex_less_first_difference a b _ va vb Hva Hvb).
  - split; [by intros ->|by intros -> ->].
  - intros q ua ub Hq Hua Hub.
    assert (Hqlt : N.of_nat q < D1 * D2 * D3) by lia.
    destruct (flat_index_coordinates_of D1 D2 D3 _ Hqlt)
      as (Hi' & Hj' & Hk' & Hback).
    apply (Hearlier _ _ _ ua ub Hi' Hj' Hk').
    + apply flat_index_before; [done..|]. rewrite Hback. lia.
    + apply (Hread x a); [done|]. by rewrite Hback, Nat2N.id.
    + apply (Hread y b); [done|]. by rewrite Hback, Nat2N.id.
Qed.
End OrderInCoordinates.

(** ** The further properties on concrete containers *)

Section MoreWitnesses.
Import Sample.

Lemma N_less_irreflexive : forall u : N, lt_op u u = false.
Proof. intros u. apply N.ltb_irrefl. Qed.

Lemma N_less_transitive : forall u v w : N,
  lt_op u v = true -> lt_op v w = true -> lt_op u w = true.
Proof.
  unfold lt_op, N_less. intros u v w. rewrite !N.ltb_lt. lia.
Qed.

Lemma N_less_asymmetric : forall u v : N,
  lt_op u v = true -> lt_op v u = false.
Proof.
  unfold lt_op, N_less. intros u v. rewrite N.ltb_lt, N.ltb_ge. lia.
Qed.

Lemma N_less_connected : forall u v : N,
  lt_op u v = false -> lt_op v u = false -> u = v.
Proof.
  unfold lt_op, N_less. intros u v. rewrite !N.ltb_ge. lia.
Qed.

Lemma N_less_incomparable : forall u v w : N,
  lt_op u v = false -> lt_op v u = false ->
  lt_op v w = false -> lt_op w v = false ->
  lt_op u w = false /\ lt_op w u = false.
Proof.
  unfold lt_op, N_less. intros u v w. rewrite !N.ltb_ge. lia.
Qed.

Lemma N_equality_decides : forall u v : N, eq_op u v = true <-> u = v.
Proof. intros u v. apply N.eqb_eq. Qed.

Lemma sample_distinct : a <> b.
Proof. discriminate. Defined.

Lemma reverse_iteration_back_to_front_witness :
  representable 2 2 2 /\
  array_at 2 2 2 objects a cells_a /\
  reverse_traverse (rbegin 2 2 2 a) (rend a) objects
  = Ret [8; 7; 6; 5; 4; 3; 2; 1] objects.
Proof.
  split; [exact sample_representable|]. split; [exact sample_a|].
  destruct (reverse_iteration_back_to_front 2 2 2 objects a cells_a
              sample_representable sample_a) as (Hwalk & _).
  exact Hwalk.
Defined.

Lemma coordinates_address_cells_one_to_one_witness :
  coordinates_of 3 4 (flat_index 3 4 1 2 3) = (1, 2, 3) /\
  flat_index 3 4 1 2 3 < 2 * 3 * 4.
Proof.
  destruct (coordinates_address_cells_one_to_one 2 3 4 a) as (Hvalid & _).
  destruct (Hvalid 1 2 3) as (_ & Hbound & Hback); [reflexivity..|].
  split; [exact Hback|exact Hbound].
Defined.

Lemma unchecked_write_changes_one_element_witness :
  array_at 2 2 2 objects a cells_a /\
  write_unchecked 2 2 a 1 0 1 42 objects
  = Ret tt (<[a := [1; 2; 3; 4; 5; 42; 7; 8]]> objects).
Proof.
  split; [exact sample_a|].
  pose proof (unchecked_write_changes_one_element 2 2 2 objects a cells_a
                1 0 1 42 sample_a) as Hwrite.
  destruct Hwrite as (Hpost & _); [reflexivity..|].
  exact Hpost.
Defined.

Lemma checked_write_stays_inside_witness :
  array_at 2 2 2 objects a cells_a /\
  write_checked 2 2 2 a 0 2 0 42 objects
  = Throw (out_of_range "array_3d: index out of range") objects.
Proof.
  split; [exact sample_a|].
  destruct (checked_write_stays_inside 2 2 2 objects a cells_a 0 2 0 42
              sample_a) as (Hout & _).
  apply Hout. right; left. discriminate.
Defined.

Lemma swap_receiver_argument_symmetric_witness :
  representable 2 2 2 /\ a <> b /\
  array_at 2 2 2 objects a cells_a /\
  array_at 2 2 2 objects b cells_b /\
  swap 2 2 2 a b objects = swap 2 2 2 b a objects.
Proof.
  split; [exact sample_representable|]. split; [exact sample_distinct|].
  split; [exact sample_a|]. split; [exact sample_b|].
  exact (swap_receiver_argument_symmetric 2 2 2 objects a b cells_a cells_b
           sample_representable sample_distinct sample_a sample_b).
Defined.

Lemma swap_reverses_comparisons_witness :
  representable 2 2 2 /\ a <> b /\
  array_at 2 2 2 objects a cells_a /\
  array_at 2 2 2 objects b cells_b /\
  (swap 2 2 2 a b ;;; op_lt 2 2 2 a b) objects
  = (r <- op_lt 2 2 2 b a ;; swap 2 2 2 a b ;;; ret r) objects.
Proof.
  split; [exact sample_representable|]. split; [exact sample_distinct|].
  split; [exact sample_a|]. split; [exact sample_b|].
  destruct (swap_reverses_comparisons 2 2 2 objects a b cells_a cells_b
              sample_representable sample_distinct sample_a sample_b)
    as (Hlt & _).
  exact Hlt.
Defined.


Lemma container_order_is_strict_witness :
  representable 2 2 2 /\
  array_at 2 2 2 objects a cells_a /\
  array_at 2 2 2 objects b cells_b /\
  op_lt 2 2 2 a a objects = Ret false objects /\
  (op_lt 2 2 2 a b objects = Ret true objects ->
   op_lt 2 2 2 b a objects = Ret false objects).
Proof.
  split; [exact sample_representable|].
  split; [exact sample_a|]. split; [exact sample_b|].
  destruct (container_order_is_strict 2 2 2 objects a b a
              cells_a cells_b cells_a
              N_less_irreflexive N_less_transitive N_less_incomparable
              sample_representable sample_a sample_b sample_a)
    as (Hirr & Hasym & _).
  split; [exact Hirr|exact Hasym].
Defined.

Lemma equality_and_order_agree_witness :
  representable 2 2 2 /\
  array_at 2 2 2 objects a cells_a /\
  array_at 2 2 2 objects b cells_b /\
  (op_le 2 2 2 a b objects = Ret true objects <->
   op_lt 2 2 2 a b objects = Ret true objects \/
   op_eq 2 2 2 a b objects = Ret true objects).
Proof.
  split; [exact sample_representable|].
  split; [exact sample_a|]. split; [exact sample_b|].
  destruct (equality_and_order_agree 2 2 2 objects a b cells_a cells_b
              N_equality_decides N_less_irreflexive N_less_asymmetric
              N_less_connected sample_representable sample_a sample_b)
    as (_ & _ & _ & Hle).
  exact Hle.
Defined.

Lemma zero_dimension_behaviour_witness :
  array_at 2 0 2 ({[ a := []; b := [] ]} : heap N) a [] /\
  array_at 2 0 2 ({[ a := []; b := [] ]} : heap N) b [] /\
  at_ 2 0 2 a 0 0 0 ({[ a := []; b := [] ]} : heap N)
  = Throw (out_of_range "array_3d: index out of range")
      {[ a := []; b := [] ]} /\
  op_eq 2 0 2 a b ({[ a := []; b := [] ]} : heap N)
  = Ret true {[ a := []; b := [] ]}.
Proof.
  assert (Ha : array_at 2 0 2 ({[ a := []; b := [] ]} : heap N) a [])
    by (split; reflexivity).
  assert (Hb : array_at 2 0 2 ({[ a := []; b := [] ]} : heap N) b [])
    by (split; reflexivity).
  split; [exact Ha|]. split; [exact Hb|].
  destruct (zero_dimension_behaviour 2 0 2 {[ a := []; b := [] ]} a b [] [] 0
              (or_intror (or_introl eq_refl)) Ha Hb)
    as (_ & Hat & _ & _ & _ & Heq & _).
  split; [exact (Hat 0 0 0)|exact Heq].
Defined.

Lemma converting_assignment_round_trip_witness :
  (forall v, Z.to_N (widen v) = v) /\
  representable 2 2 2 /\
  array_at 2 2 2 objects a cells_a /\
  array_at 2 2 2 wide_objects d (replicate 8 0%Z) /\
  op_assign 2 2 2 Z.to_N
    (<[d := widen <$> cells_a]> wide_objects) a d objects
  = Ret a objects.
Proof.
  assert (Hback : forall v, Z.to_N (widen v) = v) by apply N2Z.id.
  assert (Hwide : array_at 2 2 2 wide_objects d (replicate 8 0%Z))
    by (split; reflexivity).
  split; [exact Hback|]. split; [exact sample_representable|].
  split; [exact sample_a|]. split; [exact Hwide|].
  pose proof (converting_assignment_round_trip 2 2 2 widen Z.to_N
                objects wide_objects a d cells_a (replicate 8 0%Z)
                Hback sample_representable sample_a Hwide) as Hround.
  cbv zeta in Hround. destruct Hround as (_ & Hrestored).
  exact Hrestored.
Defined.

Lemma order_decided_at_first_coordinates_witness :
  representable 2 2 2 /\
  array_at 2 2 2 objects a cells_a /\
  array_at 2 2 2 objects b cells_b /\
  load (op_call 2 2 a 1 1 1) objects = Ret 8 objects /\
  load (op_call 2 2 b 1 1 1) objects = Ret 9 objects /\
  op_lt 2 2 2 a b objects = Ret true objects.
Proof.
  split; [exact sample_representable|].
  split; [exact sample_a|]. split; [exact sample_b|].
  split; [reflexivity|]. split; [reflexivity|].
  destruct (order_decided_at_first_coordinates 2 2 2 objects a b
              cells_a cells_b 1 1 1 8 9
              sample_representable sample_a sample_b)
    as (Hless & _); [reflexivity..| |exact (Hless eq_refl)].
  intros i' j' k' ua ub Hi' Hj' Hk' Hbefore Hua Hub.
  assert (Ei : i' = 0 \/ i' = 1) by lia.
  assert (Ej : j' = 0 \/ j' = 1) by lia.
  assert (Ek : k' = 0 \/ k' = 1) by lia.
  destruct Ei as [-> | ->], Ej as [-> | ->], Ek as [-> | ->];
    try (vm_compute in Hua, Hub; simplify_eq; split; reflexivity).
  unfold coordinates_before in Hbefore. lia.
Defined.
End MoreWitnesses.
